(** * droidwook: covering letters of a phrase with dictionary words

    A shallow embedding of [droidwook.py]: the letter maps
    ([make_letter_maps]), the word-placement search
    ([WordMatcher._print_word_matches]), the table of placements by start
    index ([MatchResults]) and the combination enumerator
    ([MatchResults._iterate_matches] / [iterate_all_matches]), together with
    the dictionary trimming ([LetterInventory], [trim_dictionary]) and the
    dictionary loading path of [main], and the printing of combinations
    ([make_word_line], [print_word_list]).

    Python exceptions are modelled by the result type [res]; Python strings
    are ASCII strings, handled as [list ascii] once they are lower-cased. *)

From Stdlib Require Import Ascii String Arith Lia ZArith Bool List Sorting.Sorted.
Import ListNotations.

(** ** Exceptions and the result monad *)

Inductive exn : Type :=
| KeyError
| IndexError
| TypeError
| AttributeError
| RecursionError
| FileNotFoundError
| PermissionError
| IsADirectoryError
| UnicodeDecodeError
| ValueError.

Inductive res (A : Type) : Type :=
| Ok (a : A)
| Raise (e : exn).
Arguments Ok {A} a.
Arguments Raise {A} e.

Definition bind {A B} (m : res A) (k : A -> res B) : res B :=
  match m with
  | Ok a => k a
  | Raise e => Raise e
  end.

Notation "x <- m ;; k" := (bind m (fun x => k))
  (at level 61, m at next level, right associativity).

(** [for x in l: acc = f(acc, x)] where [f] may raise. *)
Fixpoint res_fold_left {A B} (f : A -> B -> res A) (l : list B) (a : A) : res A :=
  match l with
  | [] => Ok a
  | x :: l' => a' <- f a x ;; res_fold_left f l' a'
  end.

(** The sequence produced by [for x in l: yield from f(x)]. *)
Fixpoint res_flat_map {A B} (f : A -> res (list B)) (l : list A) : res (list B) :=
  match l with
  | [] => Ok []
  | x :: l' => o <- f x ;; o' <- res_flat_map f l' ;; Ok (o ++ o')
  end.

(** [range(a, b)] *)
Definition range (a b : nat) : list nat := seq a (b - a).

(** ** Characters *)

Definition ascii_lowercase : list ascii :=
  list_ascii_of_string "abcdefghijklmnopqrstuvwxyz".

(** [is_letter(letter)]: [letter in string.ascii_lowercase]. *)
Definition is_letter (letter : ascii) : bool :=
  existsb (Ascii.eqb letter) ascii_lowercase.

(** [str.lower] on one ASCII character. *)
Definition ascii_lower (c : ascii) : ascii :=
  let n := nat_of_ascii c in
  if (65 <=? n) && (n <=? 90) then ascii_of_nat (n + 32) else c.

Definition lower (s : string) : list ascii :=
  map ascii_lower (list_ascii_of_string s).

(** ** Letter maps *)

(** A Python dict from letters to lists of indices; a missing key is [None]. *)
Definition lmap := ascii -> option (list nat).

Definition lmap_empty : lmap := fun _ => None.

(** [if k in d: d[k].append(v) else: d[k] = [v]] *)
Definition dict_append (d : lmap) (k : ascii) (v : nat) : lmap :=
  fun k' => if Ascii.eqb k' k then
              match d k with
              | Some l => Some (l ++ [v])
              | None => Some [v]
              end
            else d k'.

(** Loop state of [make_letter_maps]: [(last, lastLetter, lastIndex)]. *)
Definition mlm_state : Type := (option lmap * option ascii * nat)%type.

(** The map stored at a letter position, from the loop state left by the
    later positions: a copy of [last] with [lastIndex] appended to the list
    of [lastLetter].  ([lastLetter] is never [None] while [last] is set.) *)
Definition next_map (st : mlm_state) : lmap :=
  match st with
  | (None, _, _) => lmap_empty
  | (Some last, Some lastLetter, lastIndex) => dict_append last lastLetter lastIndex
  | (Some last, None, _) => last
  end.

(** The loop [for i in range(len(phrase)-1, -1, -1)] of [make_letter_maps],
    run over the suffix [s] of the phrase that starts at position [i]:
    returns [maps[i:]] and the loop state after position [i]. *)
Fixpoint make_letter_maps_from (s : list ascii) (i : nat)
  : list (option lmap) * mlm_state :=
  match s with
  | [] => ([], (None, None, 0))
  | letter :: s' =>
      let '(maps, st) := make_letter_maps_from s' (S i) in
      if is_letter letter then
        let m := next_map st in
        (Some m :: maps, (Some m, Some letter, i))
      else (None :: maps, st)
  end.

Definition make_letter_maps (phrase : list ascii) : list (option lmap) :=
  fst (make_letter_maps_from phrase 0).

(** The [initial_map] built in [MatchResults.__init__]. *)
Definition make_initial_map (phrase : list ascii) : lmap :=
  fold_left
    (fun m letter =>
       fold_left
         (fun m i => if Ascii.eqb (nth i phrase " "%char) letter
                     then dict_append m letter i else m)
         (range 0 (length phrase)) m)
    ascii_lowercase lmap_empty.

(** ** MatchResults *)

(** A placement: the phrase indices covered by one word. *)
Definition placement := list nat.

Definition placement_eq_dec : forall x y : placement, {x = y} + {x <> y} :=
  list_eq_dec Nat.eq_dec.

Definition combination_eq_dec : forall x y : list placement, {x = y} + {x <> y} :=
  list_eq_dec placement_eq_dec.

(** The fields of [MatchResults] used by the search ([original_phrase] and
    [words_only] only serve printing). *)
Record MatchResults := {
  mr_phrase : list ascii;
  mr_count : Z;
  mr_allow_less : bool;
  mr_words : list (option (list placement));
  mr_maps : list (option lmap);
  mr_initial_map : lmap
}.

Definition new_MatchResults (phrase : string) (count : Z) (allow_less : bool)
  : MatchResults :=
  let p := lower phrase in
  {| mr_phrase := p;
     mr_count := count;
     mr_allow_less := allow_less;
     mr_words := map (fun letter => if is_letter letter then Some [] else None) p;
     mr_maps := make_letter_maps p;
     mr_initial_map := make_initial_map p |}.

Definition set_words (mr : MatchResults) (w : list (option (list placement)))
  : MatchResults :=
  {| mr_phrase := mr_phrase mr;
     mr_count := mr_count mr;
     mr_allow_less := mr_allow_less mr;
     mr_words := w;
     mr_maps := mr_maps mr;
     mr_initial_map := mr_initial_map mr |}.

(** [l[n] = x] for [n] in range. *)
Fixpoint update_nth {A} (n : nat) (x : A) (l : list A) : list A :=
  match l, n with
  | [], _ => []
  | _ :: l', 0 => x :: l'
  | y :: l', S n' => y :: update_nth n' x l'
  end.

(** [add_match(indices, index)] (with [print_results=False], as it is
    called): [self.words[index].append(indices)]. *)
Definition add_match (mr : MatchResults) (indices : placement) (index : nat)
  : res MatchResults :=
  match nth_error (mr_words mr) index with
  | Some (Some l) =>
      Ok (set_words mr (update_nth index (Some (l ++ [indices])) (mr_words mr)))
  | Some None => Raise AttributeError
  | None => Raise IndexError
  end.

(** [next_index(word)]: [word[-1] + 1]. *)
Definition next_index (word : placement) : res nat :=
  match word with
  | [] => Raise IndexError
  | _ => Ok (S (last word 0))
  end.

(** [MatchResults._iterate_matches(index, current_words)].  The generator is
    modelled by the list of everything it yields; [fuel] bounds the depth of
    the recursion (running out is reported as [RecursionError]; the bound
    used by [iterate_matches] is never reached, see [C8]). *)
Fixpoint iterate_matches_ (fuel : nat) (mr : MatchResults) (index : nat)
         (current_words : list placement) : res (list (list placement)) :=
  match fuel with
  | 0 => Raise RecursionError
  | S fuel' =>
      let count := mr_count mr in
      match nth_error (mr_words mr) index with
      | None => Raise IndexError
      | Some None => Ok []
      | Some (Some word_list) =>
          res_flat_map
            (fun word =>
               let cw := current_words ++ [word] in
               let n := Z.of_nat (length cw) in
               let emitted :=
                 if (mr_allow_less mr && (n <? count)%Z) || (count <? 1)%Z
                    || (n =? count)%Z
                 then [cw] else [] in
               if ((count <? 1)%Z || (n <? count)%Z) then
                 start <- next_index word ;;
                 rest <- res_flat_map
                           (fun i => iterate_matches_ fuel' mr i cw)
                           (range start (length (mr_phrase mr))) ;;
                 Ok (emitted ++ rest)
               else Ok emitted)
            word_list
      end
  end.

Definition iterate_matches (mr : MatchResults) (index : nat)
  : res (list (list placement)) :=
  iterate_matches_ (S (length (mr_phrase mr))) mr index [].

Definition iterate_all_matches (mr : MatchResults) : res (list (list placement)) :=
  res_flat_map (iterate_matches mr) (range 0 (length (mr_phrase mr))).

(** ** WordMatcher: the placement search *)

(** [_print_word_matches(word, start_index, word_index, index, indices,
    words)], written over [rest = word[word_index:]]: [rest = []] is the test
    [word_index == len(word)] and the head of [rest] is [word[word_index]]. *)
Fixpoint print_word_matches_rest (rest : list ascii) (start_index index : nat)
         (indices : placement) (words : MatchResults) : res MatchResults :=
  match rest with
  | [] => add_match words indices start_index
  | c :: rest' =>
      match nth_error (mr_maps words) index with
      | Some (Some m) =>
          match m c with
          | Some l =>
              res_fold_left
                (fun words i => print_word_matches_rest rest' start_index i
                                  (indices ++ [i]) words)
                l words
          | None => Ok words
          end
      | Some None => Raise TypeError   (* [c in None] *)
      | None => Raise IndexError
      end
  end.

Definition print_word_matches (word : list ascii) (start_index word_index index : nat)
           (indices : placement) (words : MatchResults) : res MatchResults :=
  print_word_matches_rest (skipn word_index word) start_index index indices words.

(** The body of the loop [for word in trimmed_dictionary] of
    [print_matches]. *)
Definition match_word (words : MatchResults) (word : list ascii) : res MatchResults :=
  match word with
  | [] => Raise IndexError   (* [word[0]] *)
  | w0 :: _ =>
      match mr_initial_map words w0 with
      | Some next_indices =>
          res_fold_left (fun words i => print_word_matches word i 1 i [i] words)
                        next_indices words
      | None => Ok words
      end
  end.

(** ** LetterInventory and trim_dictionary *)

(** [letters] is a dict from letters to counts, kept in insertion order. *)
Record LetterInventory := { letters : list (ascii * Z) }.

Definition LetterInventory_init (word : list ascii) : LetterInventory :=
  match word with
  | [] => {| letters := [] |}
  | _ => {| letters := map (fun letter =>
                              (letter, Z.of_nat (count_occ ascii_dec word letter)))
                           ascii_lowercase |}
  end.

(** [get(letter)]: [self.letters[letter]], a [KeyError] when missing. *)
Definition inv_get (inv : LetterInventory) (letter : ascii) : res Z :=
  match find (fun kv => Ascii.eqb (fst kv) letter) (letters inv) with
  | Some (_, n) => Ok n
  | None => Raise KeyError
  end.

Fixpoint inv_sub_loop (self other : LetterInventory) (ls : list ascii)
         (difference : list (ascii * Z)) : res (option LetterInventory) :=
  match ls with
  | [] => Ok (Some {| letters := difference |})
  | letter :: ls' =>
      a <- inv_get self letter ;;
      b <- inv_get other letter ;;
      let count := (a - b)%Z in
      if (count <? 0)%Z then Ok None
      else inv_sub_loop self other ls' (difference ++ [(letter, count)])
  end.

(** [LetterInventory.sub(other)]. *)
Definition inv_sub (self other : LetterInventory) : res (option LetterInventory) :=
  if length (letters self) <? length (letters other) then Ok None
  else inv_sub_loop self other ascii_lowercase [].

(** [set(letter, count)]: [self.letters[letter] = count]; an existing key
    keeps its place, a new one goes last. *)
Fixpoint assoc_set (l : list (ascii * Z)) (k : ascii) (v : Z) : list (ascii * Z) :=
  match l with
  | [] => [(k, v)]
  | (k', v') :: l' => if Ascii.eqb k' k then (k', v) :: l' else (k', v') :: assoc_set l' k v
  end.

Definition inv_set (inv : LetterInventory) (letter : ascii) (count : Z) : LetterInventory :=
  {| letters := assoc_set (letters inv) letter count |}.

(** The loop of [add(other)], building [result.letters]. *)
Fixpoint inv_add_loop (self other : LetterInventory) (ls : list ascii)
         (result : list (ascii * Z)) : res LetterInventory :=
  match ls with
  | [] => Ok {| letters := result |}
  | letter :: ls' =>
      a <- inv_get self letter ;;
      b <- inv_get other letter ;;
      inv_add_loop self other ls' (result ++ [(letter, (a + b)%Z)])
  end.

Definition inv_add (self other : LetterInventory) : res LetterInventory :=
  inv_add_loop self other ascii_lowercase [].

(** [copy()]: a new inventory with a copy of the dict. *)
Definition inv_copy (inv : LetterInventory) : LetterInventory :=
  {| letters := letters inv |}.

(** [trim_dictionary(phrase, dictionary, dictionary_inventories)]; the
    inventory of [dictionary[i]] is [dictionary_inventories[i]]. *)
Fixpoint trim_loop (inventory : LetterInventory) (dictionary : list (list ascii))
         (invs : list LetterInventory) : res (list (list ascii)) :=
  match dictionary with
  | [] => Ok []
  | word :: dictionary' =>
      match invs with
      | [] => Raise IndexError
      | inv :: invs' =>
          d <- inv_sub inventory inv ;;
          rest <- trim_loop inventory dictionary' invs' ;;
          match d with
          | Some _ => Ok (word :: rest)
          | None => Ok rest
          end
      end
  end.

Definition trim_dictionary (phrase : list ascii) (dictionary : list (list ascii))
           (dictionary_inventories : list LetterInventory) : res (list (list ascii)) :=
  trim_loop (LetterInventory_init phrase) dictionary dictionary_inventories.

(** The test of [trim_dictionary]: [inventory.sub(LetterInventory(word))]
    returns an inventory (and does not raise). *)
Definition keep (phrase word : list ascii) : bool :=
  match inv_sub (LetterInventory_init phrase) (LetterInventory_init word) with
  | Ok (Some _) => true
  | _ => false
  end.

(** ** WordMatcher *)

Record WordMatcher := {
  wm_dictionary : list (list ascii);
  wm_inventories : list LetterInventory
}.

Definition set_dict (dictionary : list string) : WordMatcher :=
  let d := map lower dictionary in
  {| wm_dictionary := d; wm_inventories := map LetterInventory_init d |}.

(** The part of [print_matches] that fills the table of placements. *)
Definition build_matches (wm : WordMatcher) (phrase : string) (count : Z)
           (allow_less : bool) : res MatchResults :=
  let words := new_MatchResults phrase count allow_less in
  trimmed_dictionary <- trim_dictionary (mr_phrase words) (wm_dictionary wm)
                                        (wm_inventories wm) ;;
  res_fold_left match_word trimmed_dictionary words.

(** [print_matches]: the sequence of combinations handed to the printer
    ([print_word_list] / [make_word_line] only format them). *)
Definition print_matches (wm : WordMatcher) (phrase : string) (count : Z)
           (allow_less : bool) : res (list (list placement)) :=
  words <- build_matches wm phrase count allow_less ;;
  iterate_all_matches words.

(** The engine entry point: a matcher over [dictionary], then [print_matches]. *)
Definition find_combinations (dictionary : list string) (phrase : string)
           (count : Z) (allow_less : bool) : res (list (list placement)) :=
  print_matches (set_dict dictionary) phrase count allow_less.

(** The same search without the [trim_dictionary] pre-filter. *)
Definition build_matches_untrimmed (wm : WordMatcher) (phrase : string) (count : Z)
           (allow_less : bool) : res MatchResults :=
  res_fold_left match_word (wm_dictionary wm) (new_MatchResults phrase count allow_less).

Definition print_matches_untrimmed (wm : WordMatcher) (phrase : string) (count : Z)
           (allow_less : bool) : res (list (list placement)) :=
  words <- build_matches_untrimmed wm phrase count allow_less ;;
  iterate_all_matches words.

(** ** Loading the dictionary and [main] *)

(** What opening and reading a path gives: its lines (each with its line
    terminator, as [readlines] returns them) or the exception raised. *)
Definition file_system := string -> res (list (list ascii)).

(** Whitespace as [str.rstrip] strips it (ASCII part). *)
Definition is_space (c : ascii) : bool :=
  let n := nat_of_ascii c in ((9 <=? n) && (n <=? 13)) || ((28 <=? n) && (n <=? 32)).

Fixpoint drop_spaces (s : list ascii) : list ascii :=
  match s with
  | c :: s' => if is_space c then drop_spaces s' else s
  | [] => []
  end.

Definition rstrip (s : list ascii) : list ascii := rev (drop_spaces (rev s)).

Fixpoint str_ltb (s t : list ascii) : bool :=
  match s, t with
  | _, [] => false
  | [], _ :: _ => true
  | a :: s', b :: t' =>
      if nat_of_ascii a <? nat_of_ascii b then true
      else if nat_of_ascii b <? nat_of_ascii a then false
      else str_ltb s' t'
  end.

Fixpoint insert_sorted (x : list ascii) (l : list (list ascii)) : list (list ascii) :=
  match l with
  | [] => [x]
  | y :: l' => if str_ltb y x then y :: insert_sorted x l' else x :: l
  end.

Definition sort_strings (l : list (list ascii)) : list (list ascii) :=
  fold_right insert_sorted [] l.

Definition string_of_chars (s : list ascii) : string := string_of_list_ascii s.

(** [read_dict(path)]: the lower-cased, right-stripped lines, deduplicated
    and sorted. *)
Definition read_dict (fs : file_system) (path : string) : res (list string) :=
  lines <- fs path ;;
  let words := nodup (list_eq_dec ascii_dec)
                 (map (fun line => rstrip (map ascii_lower line)) lines) in
  Ok (map string_of_chars (sort_strings words)).

(** [WordMatcher(path)] *)
Definition WordMatcher_init (fs : file_system) (path : string) : res WordMatcher :=
  d <- read_dict fs path ;; Ok (set_dict d).

Definition DICT_PATH : string := "dict.txt".

(** What [main] does when it returns normally. *)
Inductive main_outcome :=
| Reported (message : string)
| Printed (combinations : list (list placement)).

(** [main] when a (non-empty) phrase is given on the command line. *)
(** [args.dictionary if args.dictionary else DICT_PATH] *)
Definition dict_path (dictionary : option string) : string :=
  match dictionary with
  | Some d => if String.eqb d "" then DICT_PATH else d
  | None => DICT_PATH
  end.

Definition main_with_phrase (fs : file_system) (dictionary : option string)
           (phrase : string) (count : Z) (allow_less : bool) : res main_outcome :=
  match WordMatcher_init fs (dict_path dictionary) with
  | Raise FileNotFoundError => Ok (Reported "Error loading dictionary")
  | Raise e => Raise e
  | Ok matcher =>
      combinations <- print_matches matcher phrase count allow_less ;;
      Ok (Printed combinations)
  end.

(** ** Output: [make_word_line] and [print_word_list] *)

(** [[f(x) for x in l]] where [f] may raise. *)
Fixpoint res_map {A B} (f : A -> res B) (l : list A) : res (list B) :=
  match l with
  | [] => Ok []
  | x :: l' => y <- f x ;; ys <- res_map f l' ;; Ok (y :: ys)
  end.

(** [max(l)]: a [ValueError] on an empty list. *)
Definition py_max (l : list nat) : res nat :=
  match l with
  | [] => Raise ValueError
  | x :: l' => Ok (fold_left Nat.max l' x)
  end.

(** [l[index] = x]: an [IndexError] out of range. *)
Definition list_set {A} (l : list A) (index : nat) (x : A) : res (list A) :=
  if index <? length l then Ok (update_nth index x l) else Raise IndexError.

(** [phrase[index]] *)
Definition char_at (phrase : list ascii) (index : nat) : res ascii :=
  match nth_error phrase index with
  | Some c => Ok c
  | None => Raise IndexError
  end.

(** [" ".join(words)] *)
Fixpoint join_space (words : list (list ascii)) : list ascii :=
  match words with
  | [] => []
  | [w] => w
  | w :: words' => w ++ " "%char :: join_space words'
  end.

(** [current = ""; for index in word: current += phrase[index]] *)
Definition word_text (phrase : list ascii) (word : placement) : res (list ascii) :=
  res_fold_left (fun current index => c <- char_at phrase index ;; Ok (current ++ [c]))
                word [].

Definition make_word_line (word_list : list placement) (phrase : string) : res string :=
  let p := list_ascii_of_string phrase in
  words <- res_fold_left (fun words word => current <- word_text p word ;;
                                            Ok (words ++ [current]))
                         word_list [] ;;
  Ok (string_of_list_ascii (join_space words)).

(** ["_" if is_letter(letter.lower()) else letter] *)
Definition mask_char (letter : ascii) : ascii :=
  if is_letter (ascii_lower letter) then "_"%char else letter.

(** The inner loop of [print_word_list] over one word: it uncovers the
    letters of the word in [result] and collects them in [current]. *)
Definition uncover_word (phrase : list ascii) (result : list ascii) (word : placement)
  : res (list ascii * list ascii) :=
  res_fold_left (fun (st : list ascii * list ascii) index =>
                   let '(result, current) := st in
                   c <- char_at phrase index ;;
                   result' <- list_set result index c ;;
                   Ok (result', current ++ [c]))
                word (result, []).

(** [print_word_list(word_list, phrase, words_only)]: the line it prints
    (without the newline). [next_index] gives at least 1, so [2 * i - 1]
    never goes below 0. *)
Definition print_word_list (word_list : list placement) (phrase : string)
           (words_only : bool) : res string :=
  let p := list_ascii_of_string phrase in
  st <- res_fold_left (fun (st : list ascii * list (list ascii)) word =>
                         let '(result, words) := st in
                         st' <- uncover_word p result word ;;
                         let '(result', current) := st' in
                         Ok (result', words ++ [current]))
                      word_list (map mask_char p, []) ;;
  let '(result, words) := st in
  if words_only then Ok (string_of_list_ascii (join_space words))
  else
    let combined := join_space (map (fun c => [c]) result) in
    space_indices <- res_map next_index word_list ;;
    last_index <- py_max space_indices ;;
    combined' <- res_fold_left (fun combined i =>
                                  if negb (i =? last_index)
                                  then list_set combined (2 * i - 1) "|"%char
                                  else Ok combined)
                               space_indices combined ;;
    Ok (string_of_list_ascii
          (combined' ++ list_ascii_of_string " (" ++ join_space words ++ [")"%char])).

(** The [unique_phrases] filter of [print_matches]: a line is printed when
    its lower-cased form is not yet in the set [lines] of those seen. *)
Fixpoint unique_lines (seen : list (list ascii)) (lines : list string) : list string :=
  match lines with
  | [] => []
  | line :: lines' =>
      let as_lower := lower line in
      if in_dec (list_eq_dec ascii_dec) as_lower seen then unique_lines seen lines'
      else line :: unique_lines (as_lower :: seen) lines'
  end.

(** [print_matches(phrase, count, allow_less, words_only, unique_phrases)]:
    the lines it prints (when no exception is raised). *)
Definition print_matches_lines (wm : WordMatcher) (phrase : string) (count : Z)
           (allow_less words_only unique_phrases : bool) : res (list string) :=
  words <- build_matches wm phrase count allow_less ;;
  combinations <- iterate_all_matches words ;;
  if words_only && unique_phrases then
    lines <- res_map (fun word_list => make_word_line word_list phrase) combinations ;;
    Ok (unique_lines [] lines)
  else res_map (fun word_list => print_word_list word_list phrase words_only) combinations.

(** ** Vocabulary of the properties *)

(** The placements stored for start index [i] ([self.words[i]]). *)
Definition bucket (mr : MatchResults) (i : nat) : list placement :=
  match nth_error (mr_words mr) i with
  | Some (Some b) => b
  | _ => []
  end.

Definition start_of (p : placement) : nat := hd 0 p.
Definition end_of (p : placement) : nat := last p 0.

(** The non-overlap invariant: each placement starts after the last index of
    the one before it. *)
Fixpoint chained (c : list placement) : bool :=
  match c with
  | p :: ((q :: _) as c') => (end_of p <? start_of q) && chained c'
  | _ => true
  end.

(** How many ways [c] can be picked from the stored placements: the product,
    over its placements, of how often each is stored in its start bucket. *)
Definition multiplicity (mr : MatchResults) (c : list placement) : nat :=
  fold_right (fun p acc => count_occ placement_eq_dec (bucket mr (start_of p)) p * acc)
             1 c.

(** The test made in [_iterate_matches] after each push, for a stack of [n]
    placements. *)
Definition emit_ok (count : Z) (allow_less : bool) (n : nat) : bool :=
  (allow_less && (Z.of_nat n <? count)%Z) || (count <? 1)%Z || (Z.of_nat n =? count)%Z.

Fixpoint increasing (l : list nat) : bool :=
  match l with
  | x :: ((y :: _) as l') => (x <? y) && increasing l'
  | _ => true
  end.

(** [ps] is a placement of [word] in [phrase]: strictly increasing indices
    whose characters spell [word]. *)
Definition placement_of (phrase word : list ascii) (ps : placement) : Prop :=
  increasing ps = true /\ map (nth_error phrase) ps = map Some word.

(** Position [j] of [phrase] holds the letter [L]. *)
Definition has_letter (phrase : list ascii) (L : ascii) (j : nat) : bool :=
  match nth_error phrase j with
  | Some c => Ascii.eqb c L
  | None => false
  end.

(** The shape of the tables the search builds. *)
Definition table_wf (mr : MatchResults) : Prop :=
  length (mr_words mr) = length (mr_phrase mr) /\
  (forall i p, In p (bucket mr i) -> p <> [] /\ start_of p = i /\ i <= end_of p).

(** ** Auxiliary definitions of the proofs *)

Definition res_val {A} (d : A) (r : res A) : A :=
  match r with Ok a => a | Raise _ => d end.

(** The test deciding whether [_iterate_matches] goes deeper, for a stack
    of [n] placements. *)
Definition cont_ok (count : Z) (n : nat) : bool :=
  (count <? 1)%Z || (Z.of_nat n <? count)%Z.

(** What the loop body of [_iterate_matches] yields for one placement
    [word], once the deeper calls have returned. *)
Definition enum_body (fuel : nat) (mr : MatchResults) (cw : list placement)
           (word : placement) : list (list placement) :=
  let cw' := cw ++ [word] in
  (if emit_ok (mr_count mr) (mr_allow_less mr) (length cw') then [cw'] else []) ++
  (if cont_ok (mr_count mr) (length cw')
   then flat_map (fun i => res_val [] (iterate_matches_ fuel mr i cw'))
                 (range (S (end_of word)) (length (mr_phrase mr)))
   else []).

(** How often [_iterate_matches(index, cw)] yields [cw ++ c], when [cw]
    holds [L] placements. *)
Definition enum_count (mr : MatchResults) (L index : nat) (c : list placement) : nat :=
  match c with
  | [] => 0
  | p :: _ =>
      if (start_of p =? index) && chained c
         && emit_ok (mr_count mr) (mr_allow_less mr) (L + length c)
      then multiplicity mr c else 0
  end.

(** How often the whole enumeration yields [c]. *)
Definition expected_count (mr : MatchResults) (c : list placement) : nat :=
  match c with
  | [] => 0
  | _ => if chained c && emit_ok (mr_count mr) (mr_allow_less mr) (length c)
         then multiplicity mr c else 0
  end.

(** A dict entry holding a list: absent when the list would be empty. *)
Definition nonempty (l : list nat) : option (list nat) :=
  match l with [] => None | _ => Some l end.

(** The positions after [i] holding the letter [L], in increasing order. *)
Definition later_positions (phrase : list ascii) (i : nat) (L : ascii) : list nat :=
  filter (fun j => match nth_error phrase j with
                   | Some c => is_letter c && Ascii.eqb c L
                   | None => false
                   end)
         (range (S i) (length phrase)).

(** The letter positions holding [L] in a suffix [s] starting at [k]. *)
Fixpoint occ (s : list ascii) (k : nat) (L : ascii) : list nat :=
  match s with
  | [] => []
  | c :: s' => if is_letter c && Ascii.eqb c L then k :: occ s' (S k) L
               else occ s' (S k) L
  end.

(** What the search relies on about [initial_map]. *)
Definition initial_map_ok (p : list ascii) (m : lmap) : Prop :=
  forall L l, m L = Some l -> forall j, In j l -> nth_error p j = Some L /\ is_letter L = true.

(** The parts of a [MatchResults] that the search never changes. *)
Definition config_ok (mr : MatchResults) : Prop :=
  mr_maps mr = make_letter_maps (mr_phrase mr) /\
  initial_map_ok (mr_phrase mr) (mr_initial_map mr).

(** The table [words] as the search keeps it. *)
Definition words_ok (mr : MatchResults) : Prop :=
  length (mr_words mr) = length (mr_phrase mr) /\
  (forall j c, nth_error (mr_phrase mr) j = Some c -> is_letter c = true ->
               exists b, nth_error (mr_words mr) j = Some (Some b)) /\
  (forall i x, In x (bucket mr i) -> x <> [] /\ start_of x = i /\ increasing x = true).

(** What a search step may do to the table: add placements of [W] at their
    start index, and nothing when [W] has no placement at all. *)
Definition search_post (W : list ascii) (mr0 mr : MatchResults) : Prop :=
  (exists w, mr = set_words mr0 w) /\ words_ok mr /\
  (forall i y, In y (bucket mr i) ->
     In y (bucket mr0 i) \/ (placement_of (mr_phrase mr0) W y /\ start_of y = i)) /\
  ((forall y, ~ placement_of (mr_phrase mr0) W y) -> mr = mr0).

(** [y] spells [word] in [phrase], position by position. *)
Fixpoint spells (phrase : list ascii) (y : placement) (word : list ascii) : bool :=
  match y, word with
  | [], [] => true
  | j :: y', c :: word' => has_letter phrase c j && spells phrase y' word'
  | _, _ => false
  end.

(** A decision procedure for [placement_of]. *)
Definition placement_ofb (phrase word : list ascii) (y : placement) : bool :=
  increasing y && spells phrase y word.

Definition placement_eqb (x y : placement) : bool :=
  if placement_eq_dec x y then true else false.

(** How often a call of [_print_word_matches] with the indices [indices]
    (ending at [index]) and the letters [rest] still to match stores [y] at
    start index [i]. *)
Definition ext_count (phrase : list ascii) (start index : nat) (indices : placement)
           (rest : list ascii) (i : nat) (y : placement) : nat :=
  let k := length indices in
  if (i =? start) && placement_eqb (firstn k y) indices
     && increasing (index :: skipn k y) && spells phrase (skipn k y) rest
  then 1 else 0.

(** The positions of [phrase] holding [L], in increasing order. *)
Definition positions (phrase : list ascii) (L : ascii) : list nat :=
  filter (has_letter phrase L) (range 0 (length phrase)).

(** A dict entry after the values [l] have been appended to it one by one. *)
Definition extend_entry (o : option (list nat)) (l : list nat) : option (list nat) :=
  match o with
  | Some l0 => Some (l0 ++ l)
  | None => nonempty l
  end.

(** ** Generic lemmas *)

Lemma res_flat_map_ok {A B} (f : A -> res (list B)) l :
  (forall x, In x l -> exists o, f x = Ok o) ->
  res_flat_map f l = Ok (flat_map (fun x => res_val [] (f x)) l).
Proof.
  induction l as [|x l IH]; intros H; simpl; [reflexivity|].
  destruct (H x (or_introl eq_refl)) as [o Ho]. rewrite Ho. simpl.
  rewrite IH by (intros y Hy; apply H; now right). reflexivity.
Qed.

Lemma count_occ_flat_map {A B} (dec : forall x y : B, {x = y} + {x <> y})
      (g : A -> list B) l y :
  count_occ dec (flat_map g l) y = list_sum (map (fun x => count_occ dec (g x) y) l).
Proof.
  induction l as [|x l IH]; simpl; [reflexivity|].
  now rewrite count_occ_app, IH.
Qed.

Lemma list_sum_single {A} (dec : forall x y : A, {x = y} + {x <> y})
      (f : A -> nat) l a :
  (forall x, In x l -> x <> a -> f x = 0) ->
  list_sum (map f l) = count_occ dec l a * f a.
Proof.
  induction l as [|x l IH]; intros H; simpl; [reflexivity|].
  rewrite IH by (intros y Hy; apply H; now right).
  destruct (dec x a) as [->|Hne]; [lia|].
  rewrite (H x (or_introl eq_refl) Hne). lia.
Qed.

Lemma count_occ_seq s n a :
  count_occ Nat.eq_dec (seq s n) a = if (s <=? a) && (a <? s + n) then 1 else 0.
Proof.
  revert s; induction n as [|n IH]; intros s; simpl.
  - destruct (s <=? a) eqn:E1, (a <? s + 0) eqn:E2; simpl; auto;
      apply Nat.leb_le in E1; apply Nat.ltb_lt in E2; lia.
  - rewrite IH. destruct (Nat.eq_dec s a) as [->|Hne].
    + replace ((S a <=? a)) with false by (symmetry; apply Nat.leb_gt; lia).
      replace (a <=? a) with true by (symmetry; apply Nat.leb_le; lia).
      replace (a <? a + S n) with true by (symmetry; apply Nat.ltb_lt; lia).
      reflexivity.
    + destruct (S s <=? a) eqn:E1, (a <? S s + n) eqn:E2,
               (s <=? a) eqn:E3, (a <? s + S n) eqn:E4; simpl; auto;
        repeat match goal with
               | H : (_ <=? _) = true |- _ => apply Nat.leb_le in H
               | H : (_ <=? _) = false |- _ => apply Nat.leb_gt in H
               | H : (_ <? _) = true |- _ => apply Nat.ltb_lt in H
               | H : (_ <? _) = false |- _ => apply Nat.ltb_ge in H
               end; lia.
Qed.

Lemma res_flat_map_eq {A B} (f : A -> res (list B)) (g : A -> list B) l :
  (forall x, In x l -> f x = Ok (g x)) ->
  res_flat_map f l = Ok (flat_map g l).
Proof.
  induction l as [|x l IH]; intros H; simpl; [reflexivity|].
  rewrite (H x (or_introl eq_refl)). simpl.
  rewrite IH by (intros y Hy; apply H; now right). reflexivity.
Qed.

Ltac bool_facts :=
  repeat match goal with
         | H : (_ <=? _) = true |- _ => apply Nat.leb_le in H
         | H : (_ <=? _) = false |- _ => apply Nat.leb_gt in H
         | H : (_ <? _) = true |- _ => apply Nat.ltb_lt in H
         | H : (_ <? _) = false |- _ => apply Nat.ltb_ge in H
         | H : (_ <? _)%Z = true |- _ => apply Z.ltb_lt in H
         | H : (_ <? _)%Z = false |- _ => apply Z.ltb_ge in H
         | H : (_ =? _)%Z = true |- _ => apply Z.eqb_eq in H
         | H : (_ =? _)%Z = false |- _ => apply Z.eqb_neq in H
         | H : (_ =? _) = true |- _ => apply Nat.eqb_eq in H
         | H : (_ =? _) = false |- _ => apply Nat.eqb_neq in H
         | H : (_ && _) = true |- _ => apply andb_prop in H; destruct H
         | H : (_ || _) = false |- _ => apply orb_false_elim in H; destruct H
         end.

(** ** The enumerator *)

Lemma emit_cont count allow_less n m :
  emit_ok count allow_less n = true -> m < n -> cont_ok count m = true.
Proof.
  unfold emit_ok, cont_ok. intros H Hm.
  destruct (count <? 1)%Z eqn:E; [reflexivity|]. simpl.
  apply Z.ltb_lt. rewrite orb_false_r in H.
  apply orb_prop in H as [H|H]; bool_facts; lia.
Qed.

Lemma iterate_matches_step fuel mr index cw b :
  nth_error (mr_words mr) index = Some (Some b) ->
  (forall w, In w b -> w <> []) ->
  (forall w, In w b -> cont_ok (mr_count mr) (length (cw ++ [w])) = true ->
   forall i, In i (range (S (end_of w)) (length (mr_phrase mr))) ->
   exists o, iterate_matches_ fuel mr i (cw ++ [w]) = Ok o) ->
  iterate_matches_ (S fuel) mr index cw = Ok (flat_map (enum_body fuel mr cw) b).
Proof.
  intros Hn Hne Hrec. simpl. rewrite Hn.
  apply res_flat_map_eq. intros w Hw. unfold enum_body.
  destruct (emit_ok _ _ _) eqn:Hemit;
    unfold emit_ok in Hemit; rewrite Hemit;
    destruct (cont_ok _ _) eqn:Hcont; unfold cont_ok in Hcont; rewrite Hcont;
    try (rewrite app_nil_r; reflexivity);
    (pose proof (Hne w Hw) as Hw0; pose proof (Hrec w Hw) as Hrw;
     destruct w as [|x w']; [congruence|];
     change (next_index (x :: w')) with (Ok (S (end_of (x :: w')))); cbn [bind];
     rewrite res_flat_map_ok;
     [ reflexivity
     | intros i Hi; apply Hrw; [unfold cont_ok; exact Hcont | exact Hi]]).
Qed.

Lemma multiplicity_cons mr p c :
  multiplicity mr (p :: c) =
  count_occ placement_eq_dec (bucket mr (start_of p)) p * multiplicity mr c.
Proof. reflexivity. Qed.

Lemma list_sum_zero {A} (f : A -> nat) l :
  (forall x, In x l -> f x = 0) -> list_sum (map f l) = 0.
Proof.
  induction l as [|x l IH]; intros H; simpl; [reflexivity|].
  rewrite (H x (or_introl eq_refl)), IH by (intros y Hy; apply H; now right).
  reflexivity.
Qed.

Section Enumeration.

Variable mr : MatchResults.
Hypothesis Hwf : table_wf mr.

Lemma bucket_start i p : In p (bucket mr i) -> start_of p = i.
Proof. intros H. apply (proj2 Hwf) in H. tauto. Qed.

Lemma count_bucket_other i p :
  start_of p <> i -> count_occ placement_eq_dec (bucket mr i) p = 0.
Proof.
  intros Hne. apply count_occ_not_In. intros H. apply bucket_start in H. contradiction.
Qed.

Lemma bucket_beyond i : length (mr_phrase mr) <= i -> bucket mr i = [].
Proof.
  intros H. unfold bucket. destruct Hwf as [Hlen _].
  rewrite (proj2 (nth_error_None _ _)) by lia. reflexivity.
Qed.

Lemma in_range a b i : In i (range a b) -> a <= i < b.
Proof. unfold range. rewrite in_seq. lia. Qed.

Lemma iterate_matches_count : forall fuel index cw,
  index < length (mr_phrase mr) -> length (mr_phrase mr) - index <= fuel ->
  exists o, iterate_matches_ fuel mr index cw = Ok o /\
    (forall d, In d o -> exists p c, d = cw ++ p :: c) /\
    (forall c, count_occ combination_eq_dec o (cw ++ c) = enum_count mr (length cw) index c).
Proof.
  induction fuel as [|fuel IH]; intros index cw Hi Hf; [lia|].
  pose proof Hwf as [Hlen Hb].
  destruct (nth_error (mr_words mr) index) as [[b|]|] eqn:Hn.
  3: { apply nth_error_None in Hn. lia. }
  2: { exists []. simpl. rewrite Hn. split; [reflexivity|]. split; [intros d []|].
       intros [|p c]; [reflexivity|]. unfold enum_count.
       destruct (_ && _) eqn:E; [|reflexivity]. bool_facts.
       rewrite multiplicity_cons. unfold bucket at 1. rewrite H, Hn. reflexivity. }
  assert (Hbk : bucket mr index = b) by (unfold bucket; now rewrite Hn).
  assert (Hrange : forall w, In w b -> forall i,
             In i (range (S (end_of w)) (length (mr_phrase mr))) ->
             i < length (mr_phrase mr) /\ length (mr_phrase mr) - i <= fuel).
  { intros w Hw i Hi'. rewrite <- Hbk in Hw. apply Hb in Hw as [_ [Hs He]].
    apply in_range in Hi'. lia. }
  assert (Hcall : forall w, In w b -> forall i,
             In i (range (S (end_of w)) (length (mr_phrase mr))) ->
             iterate_matches_ fuel mr i (cw ++ [w])
             = Ok (res_val [] (iterate_matches_ fuel mr i (cw ++ [w])))).
  { intros w Hw i Hi'. destruct (Hrange w Hw i Hi') as [H1 H2].
    destruct (IH i (cw ++ [w]) H1 H2) as [o [-> _]]. reflexivity. }
  rewrite (iterate_matches_step fuel mr index cw b Hn).
  2: { intros w Hw. rewrite <- Hbk in Hw. apply Hb in Hw. tauto. }
  2: { intros w Hw _ i Hi'. rewrite (Hcall w Hw i Hi'). eauto. }
  exists (flat_map (enum_body fuel mr cw) b). split; [reflexivity|].
  assert (Hbody_in : forall w, In w b -> forall d, In d (enum_body fuel mr cw w) ->
                     exists c, d = cw ++ w :: c).
  { intros w Hw d Hd. unfold enum_body in Hd. apply in_app_or in Hd as [Hd|Hd].
    - destruct (emit_ok _ _ _); [|destruct Hd].
      destruct Hd as [<-|[]]. exists []. reflexivity.
    - destruct (cont_ok _ _); [|destruct Hd].
      apply in_flat_map in Hd as [i [Hi' Hd]].
      destruct (Hrange w Hw i Hi') as [H1 H2].
      destruct (IH i (cw ++ [w]) H1 H2) as [o [Ho [Hpre _]]].
      rewrite Ho in Hd. simpl in Hd. destruct (Hpre d Hd) as [p [c ->]].
      exists (p :: c). rewrite <- app_assoc. reflexivity. }
  split.
  { intros d Hd. apply in_flat_map in Hd as [w [Hw Hd]].
    destruct (Hbody_in w Hw d Hd) as [c ->]. eauto. }
  intros c. rewrite count_occ_flat_map.
  destruct c as [|p c'].
  { apply list_sum_zero. intros w Hw. apply count_occ_not_In. rewrite app_nil_r.
    intros Hin. destruct (Hbody_in w Hw _ Hin) as [c Hc].
    apply (f_equal (@length _)) in Hc. rewrite length_app in Hc. simpl in Hc. lia. }
  rewrite (list_sum_single placement_eq_dec _ b p).
  2: { intros w Hw Hne. apply count_occ_not_In. intros Hin.
       destruct (Hbody_in w Hw _ Hin) as [c0 Hc0]. apply app_inv_head in Hc0.
       congruence. }
  unfold enum_count at 1.
  destruct (Nat.eq_dec (start_of p) index) as [Hs|Hs].
  2: { rewrite <- Hbk, (count_bucket_other index p Hs).
       replace (start_of p =? index) with false by (symmetry; apply Nat.eqb_neq; auto).
       reflexivity. }
  rewrite multiplicity_cons, Hs, Nat.eqb_refl, Hbk. simpl andb.
  destruct (count_occ placement_eq_dec b p) as [|k] eqn:Hcnt.
  { destruct (_ && _); reflexivity. }
  assert (Hp : In p b) by (apply (count_occ_In placement_eq_dec); lia).
  unfold enum_body. rewrite count_occ_app.
  rewrite length_app. simpl length. rewrite Nat.add_1_r.
  assert (Hsum : forall cc, list_sum (map (fun i => count_occ combination_eq_dec
                     (res_val [] (iterate_matches_ fuel mr i (cw ++ [p]))) (cw ++ p :: cc))
                     (range (S (end_of p)) (length (mr_phrase mr))))
                 = list_sum (map (fun i => enum_count mr (S (length cw)) i cc)
                     (range (S (end_of p)) (length (mr_phrase mr))))).
  { intros cc. f_equal. apply map_ext_in. intros i Hi'.
    destruct (Hrange p Hp i Hi') as [H1 H2].
    destruct (IH i (cw ++ [p]) H1 H2) as [o [Ho [_ Hc]]].
    rewrite Ho. simpl.
    replace (cw ++ p :: cc) with ((cw ++ [p]) ++ cc) by (rewrite <- app_assoc; reflexivity).
    rewrite Hc, length_app, Nat.add_1_r. reflexivity. }
  destruct c' as [|q c''].
  - (* a stack of one placement on top of [cw] *)
    assert (H0 : forall ct : bool, count_occ combination_eq_dec
                   (if ct then flat_map (fun i => res_val [] (iterate_matches_ fuel mr i (cw ++ [p])))
                                 (range (S (end_of p)) (length (mr_phrase mr))) else [])
                   (cw ++ [p]) = 0).
    { intros [|]; [|reflexivity]. rewrite count_occ_flat_map.
      rewrite Hsum. apply list_sum_zero. reflexivity. }
    rewrite H0. simpl. rewrite Nat.add_1_r.
    destruct (emit_ok _ _ _); simpl.
    + destruct (combination_eq_dec (cw ++ [p]) (cw ++ [p])); [lia|congruence].
    + lia.
  - (* deeper stacks *)
    match goal with
    | |- _ * (count_occ _ (if ?e then _ else _) _ + _) = _ =>
        replace (count_occ _ (if e then _ else _) _) with 0
          by (destruct e; simpl; [|reflexivity];
              destruct (combination_eq_dec _ _) as [Heq|]; [|reflexivity];
              apply app_inv_head in Heq; discriminate)
    end.
    rewrite Nat.add_0_l.
    assert (Hec : enum_count mr (S (length cw)) (start_of q) (q :: c'') =
                  if chained (q :: c'') && emit_ok (mr_count mr) (mr_allow_less mr)
                                             (length cw + S (length (q :: c'')))
                  then multiplicity mr (q :: c'') else 0).
    { unfold enum_count. rewrite Nat.eqb_refl.
      replace (S (length cw) + length (q :: c'')) with (length cw + S (length (q :: c'')))
        by (simpl; lia). reflexivity. }
    destruct (cont_ok _ _) eqn:Hcont.
    + rewrite count_occ_flat_map, Hsum.
      rewrite (list_sum_single Nat.eq_dec _ _ (start_of q)).
      2: { intros i _ Hne. unfold enum_count.
           destruct (start_of q =? i) eqn:E; [|reflexivity]. bool_facts. congruence. }
      assert (Hrg : count_occ Nat.eq_dec (range (S (end_of p)) (length (mr_phrase mr)))
                      (start_of q) =
                    if (end_of p <? start_of q) && (start_of q <? length (mr_phrase mr))
                    then 1 else 0).
      { unfold range. rewrite count_occ_seq.
        destruct (S (end_of p) <=? start_of q) eqn:E1,
                 (start_of q <? S (end_of p) + (length (mr_phrase mr) - S (end_of p))) eqn:E2,
                 (end_of p <? start_of q) eqn:E3,
                 (start_of q <? length (mr_phrase mr)) eqn:E4;
          cbn [andb]; bool_facts; try reflexivity; lia. }
      rewrite Hrg, Hec.
      destruct (end_of p <? start_of q) eqn:Hpq; destruct (chained (q :: c''));
        destruct (emit_ok _ _ _) eqn:He;
        destruct (start_of q <? length (mr_phrase mr)) eqn:HN; cbn [andb]; try lia.
      bool_facts.
      rewrite (multiplicity_cons mr q), (bucket_beyond (start_of q) HN). simpl. lia.
    + simpl. destruct (_ && _ && _) eqn:E; [|lia].
      bool_facts. exfalso.
      rewrite (emit_cont _ _ _ (S (length cw)) H0) in Hcont; [discriminate|].
      simpl. lia.
Qed.

Lemma iterate_all_matches_count :
  exists out, iterate_all_matches mr = Ok out /\
    forall c, count_occ combination_eq_dec out c = expected_count mr c.
Proof.
  unfold iterate_all_matches.
  assert (Hcall : forall i, In i (range 0 (length (mr_phrase mr))) ->
            exists o, iterate_matches mr i = Ok o /\
              forall c, count_occ combination_eq_dec o c = enum_count mr 0 i c).
  { intros i Hi. apply in_range in Hi.
    destruct (iterate_matches_count (S (length (mr_phrase mr))) i [])
      as [o [Ho [_ Hc]]]; [lia|lia|].
    exists o. split; [exact Ho|]. intros c. exact (Hc c). }
  rewrite res_flat_map_ok.
  2: { intros i Hi. destruct (Hcall i Hi) as [o [Ho _]]. eauto. }
  eexists. split; [reflexivity|]. intros c.
  rewrite count_occ_flat_map.
  rewrite (map_ext_in _ (fun i => enum_count mr 0 i c)).
  2: { intros i Hi. destruct (Hcall i Hi) as [o [Ho Hc]]. rewrite Ho. apply Hc. }
  destruct c as [|p c']; [apply list_sum_zero; reflexivity|].
  rewrite (list_sum_single Nat.eq_dec _ _ (start_of p)).
  2: { intros i _ Hne. unfold enum_count.
       destruct (start_of p =? i) eqn:E; [|reflexivity]. bool_facts. congruence. }
  unfold range. rewrite count_occ_seq. unfold enum_count, expected_count.
  rewrite Nat.eqb_refl, Nat.sub_0_r, Nat.add_0_l. cbn [andb].
  change (length (p :: c')) with (S (length c')). rewrite Nat.add_0_l.
  destruct (0 <=? start_of p) eqn:E1; [|bool_facts; lia].
  destruct (start_of p <? length (mr_phrase mr)) eqn:E2; cbn [andb].
  - lia.
  - bool_facts. destruct (_ && _); [|lia].
    rewrite multiplicity_cons, bucket_beyond by lia. simpl. lia.
Qed.

(** With a bounded [count], [count] levels of recursion are enough. *)
Lemma iterate_matches_depth_count : forall fuel index cw,
  index < length (mr_phrase mr) ->
  (Z.of_nat (length cw) < mr_count mr <= Z.of_nat (length cw + fuel))%Z ->
  exists o, iterate_matches_ fuel mr index cw = Ok o.
Proof.
  pose proof Hwf as [Hlen Hb].
  induction fuel as [|fuel IH]; intros index cw Hi Hc; [lia|].
  destruct (nth_error (mr_words mr) index) as [[b|]|] eqn:Hn.
  3: { apply nth_error_None in Hn. lia. }
  2: { exists []. simpl. rewrite Hn. reflexivity. }
  assert (Hbk : bucket mr index = b) by (unfold bucket; now rewrite Hn).
  eexists. apply (iterate_matches_step fuel mr index cw b Hn).
  - intros w Hw. rewrite <- Hbk in Hw. apply Hb in Hw. tauto.
  - intros w Hw Hcont i Hi'. apply in_range in Hi'.
    apply IH; [lia|]. unfold cont_ok in Hcont.
    rewrite length_app in *. simpl length in *.
    apply orb_prop in Hcont as [H|H]; bool_facts; lia.
Qed.

(** Without a bound, the phrase length is enough. *)
Lemma iterate_matches_depth_phrase : forall index cw,
  index < length (mr_phrase mr) ->
  exists o, iterate_matches_ (length (mr_phrase mr)) mr index cw = Ok o.
Proof.
  intros index cw Hi.
  destruct (iterate_matches_count (length (mr_phrase mr)) index cw Hi) as [o [Ho _]];
    [lia|]. eauto.
Qed.

End Enumeration.

(** ** Letter maps *)

Lemma next_map_state s k L :
  next_map (snd (make_letter_maps_from s k)) L = nonempty (rev (occ s k L)).
Proof.
  revert k; induction s as [|c s IH]; intros k; [reflexivity|].
  simpl. destruct (make_letter_maps_from s (S k)) as [maps st] eqn:E.
  specialize (IH (S k)). rewrite E in IH. simpl in IH.
  destruct (is_letter c) eqn:Hl; simpl; [|exact IH].
  unfold dict_append. rewrite Ascii.eqb_sym.
  destruct (Ascii.eqb c L) eqn:Ec; simpl; [|exact IH].
  apply Ascii.eqb_eq in Ec. subst c. rewrite IH.
  destruct (rev (occ s (S k) L)); reflexivity.
Qed.

Lemma make_letter_maps_from_length s k :
  length (fst (make_letter_maps_from s k)) = length s.
Proof.
  revert k; induction s as [|c s IH]; intros k; [reflexivity|].
  simpl. specialize (IH (S k)).
  destruct (make_letter_maps_from s (S k)) as [maps st].
  destruct (is_letter c); simpl; simpl in IH; lia.
Qed.

Lemma make_letter_maps_from_nth s k r c :
  nth_error s r = Some c ->
  nth_error (fst (make_letter_maps_from s k)) r =
  Some (if is_letter c
        then Some (next_map (snd (make_letter_maps_from (skipn (S r) s) (S (r + k)))))
        else None).
Proof.
  revert k r; induction s as [|c0 s IH]; intros k r Hr; [destruct r; discriminate|].
  simpl. destruct (make_letter_maps_from s (S k)) as [maps st] eqn:E.
  destruct r as [|r].
  - simpl in Hr. injection Hr as <-. simpl. rewrite E.
    destruct (is_letter c0); reflexivity.
  - simpl in Hr. specialize (IH (S k) r Hr). rewrite E in IH. simpl in IH.
    replace (S (S r + k)) with (S (r + S k)) by lia.
    destruct (is_letter c0); simpl; exact IH.
Qed.

Lemma occ_filter s k L :
  occ s k L = filter (fun j => match nth_error s (j - k) with
                               | Some c => is_letter c && Ascii.eqb c L
                               | None => false
                               end) (seq k (length s)).
Proof.
  revert k; induction s as [|c s IH]; intros k; [reflexivity|].
  simpl. rewrite Nat.sub_diag. simpl. rewrite IH.
  assert (Hf : filter (fun j => match nth_error s (j - S k) with
                                | Some c => is_letter c && Ascii.eqb c L
                                | None => false
                                end) (seq (S k) (length s)) =
               filter (fun j => match nth_error (c :: s) (j - k) with
                                | Some c => is_letter c && Ascii.eqb c L
                                | None => false
                                end) (seq (S k) (length s))).
  { apply filter_ext_in. intros j Hj. apply in_seq in Hj.
    replace (j - k) with (S (j - S k)) by lia. reflexivity. }
  rewrite Hf. destruct (is_letter c && Ascii.eqb c L); reflexivity.
Qed.

Lemma later_positions_occ p i L :
  occ (skipn (S i) p) (S i) L = later_positions p i L.
Proof.
  rewrite occ_filter, length_skipn. unfold later_positions, range.
  apply filter_ext_in. intros j Hj. apply in_seq in Hj.
  rewrite nth_error_skipn. replace (S i + (j - S i)) with j by lia. reflexivity.
Qed.

Lemma make_letter_maps_length p : length (make_letter_maps p) = length p.
Proof. apply make_letter_maps_from_length. Qed.

Lemma make_letter_maps_spec p i c :
  nth_error p i = Some c ->
  exists om, nth_error (make_letter_maps p) i = Some om /\
    (is_letter c = false -> om = None) /\
    (is_letter c = true -> exists m, om = Some m /\
       forall L, m L = nonempty (rev (later_positions p i L))).
Proof.
  intros Hc. unfold make_letter_maps.
  rewrite (make_letter_maps_from_nth p 0 i c Hc).
  eexists. split; [reflexivity|]. split.
  - intros Hl. rewrite Hl. reflexivity.
  - intros Hl. rewrite Hl. eexists. split; [reflexivity|]. intros L.
    rewrite next_map_state, Nat.add_0_r, later_positions_occ. reflexivity.
Qed.

Lemma in_later_positions p i L j :
  In j (later_positions p i L) ->
  i < j < length p /\ nth_error p j = Some L /\ is_letter L = true.
Proof.
  unfold later_positions. rewrite filter_In. intros [Hj Hp].
  apply in_range in Hj.
  destruct (nth_error p j) as [c|] eqn:E; [|discriminate].
  apply andb_prop in Hp as [Hl Heq]. apply Ascii.eqb_eq in Heq. subst c.
  repeat split; auto; lia.
Qed.

(** ** The placement search *)

Lemma fold_left_inv {A B} (P : A -> Prop) (f : A -> B -> A) l a :
  P a -> (forall a x, In x l -> P a -> P (f a x)) -> P (fold_left f l a).
Proof.
  revert a; induction l as [|x l IH]; intros a Ha Hf; simpl; [exact Ha|].
  apply IH.
  - apply Hf; [left; reflexivity|exact Ha].
  - intros a' y Hy Ha'. apply Hf; [right; exact Hy|exact Ha'].
Qed.

Lemma res_fold_left_inv {A B} (Q : A -> Prop) (f : A -> B -> res A) l a :
  Q a -> (forall a x, In x l -> Q a -> exists a', f a x = Ok a' /\ Q a') ->
  exists a', res_fold_left f l a = Ok a' /\ Q a'.
Proof.
  revert a; induction l as [|x l IH]; intros a Ha Hf; simpl; [eauto|].
  destruct (Hf a x (or_introl eq_refl) Ha) as [a' [-> Ha']]. simpl.
  apply IH; [exact Ha'|]. intros a0 y Hy. apply Hf. now right.
Qed.

Lemma is_letter_lowercase L : In L ascii_lowercase -> is_letter L = true.
Proof.
  intros H. unfold is_letter. apply existsb_exists. exists L.
  split; [exact H|apply Ascii.eqb_refl].
Qed.

Lemma dict_append_ok p m L j :
  initial_map_ok p m -> nth_error p j = Some L -> is_letter L = true ->
  initial_map_ok p (dict_append m L j).
Proof.
  intros Hm Hj HL L' l. unfold dict_append.
  destruct (Ascii.eqb L' L) eqn:E; [|apply Hm].
  apply Ascii.eqb_eq in E. subst L'.
  destruct (m L) as [l0|] eqn:Hl0; intros Heq; injection Heq as <-; intros j' Hj'.
  - apply in_app_or in Hj' as [Hj'|[<-|[]]]; [apply (Hm L l0 Hl0 j' Hj')|auto].
  - destruct Hj' as [<-|[]]. auto.
Qed.

Lemma make_initial_map_ok p : initial_map_ok p (make_initial_map p).
Proof.
  unfold make_initial_map. apply fold_left_inv.
  - intros L l H. discriminate.
  - intros m letter Hletter Hm. apply fold_left_inv; [exact Hm|].
    intros m' i Hi Hm'. destruct (Ascii.eqb (nth i p " "%char) letter) eqn:E; [|exact Hm'].
    apply Ascii.eqb_eq in E. apply in_range in Hi.
    apply dict_append_ok; [exact Hm'| |apply is_letter_lowercase; exact Hletter].
    rewrite <- E. apply nth_error_nth'. lia.
Qed.

Lemma set_words_eta mr : set_words mr (mr_words mr) = mr.
Proof. destruct mr; reflexivity. Qed.

Lemma update_nth_length {A} n (x : A) l : length (update_nth n x l) = length l.
Proof.
  revert n; induction l as [|y l IH]; intros [|n]; simpl; auto.
Qed.

Lemma nth_error_update_nth {A} n (x : A) l i :
  n < length l ->
  nth_error (update_nth n x l) i = if i =? n then Some x else nth_error l i.
Proof.
  revert n i; induction l as [|y l IH]; intros n i Hn; simpl in Hn; [lia|].
  destruct n as [|n], i as [|i]; simpl; auto.
  apply IH. lia.
Qed.

Lemma add_match_ok mr x start c :
  words_ok mr -> nth_error (mr_phrase mr) start = Some c -> is_letter c = true ->
  x <> [] -> start_of x = start -> increasing x = true ->
  exists w, add_match mr x start = Ok (set_words mr w) /\ words_ok (set_words mr w) /\
    forall i y, In y (bucket (set_words mr w) i) <-> In y (bucket mr i) \/ (i = start /\ y = x).
Proof.
  intros [Hlen [Hsome Hb]] Hc Hl Hx Hs Hinc.
  destruct (Hsome start c Hc Hl) as [b Hbk].
  assert (Hlt : start < length (mr_words mr)) by (apply nth_error_Some; congruence).
  assert (Hbucket : forall i, bucket (set_words mr (update_nth start (Some (b ++ [x]))
                                        (mr_words mr))) i =
                              if i =? start then b ++ [x] else bucket mr i).
  { intros i. unfold bucket at 1. simpl. rewrite nth_error_update_nth by exact Hlt.
    destruct (i =? start) eqn:E; [reflexivity|]. reflexivity. }
  assert (Hiff : forall i y, In y (bucket (set_words mr (update_nth start (Some (b ++ [x]))
                                        (mr_words mr))) i) <->
                             In y (bucket mr i) \/ (i = start /\ y = x)).
  { intros i y. rewrite Hbucket. destruct (i =? start) eqn:E.
    - apply Nat.eqb_eq in E. subst i. unfold bucket. rewrite Hbk.
      rewrite in_app_iff. simpl. intuition.
    - apply Nat.eqb_neq in E. intuition. }
  unfold add_match. rewrite Hbk. eexists. split; [reflexivity|]. split; [|exact Hiff].
  split; [|split].
  - simpl. rewrite update_nth_length. exact Hlen.
  - intros j c' Hj Hl'. simpl. rewrite nth_error_update_nth by exact Hlt.
    destruct (j =? start); [eauto|]. apply (Hsome j c' Hj Hl').
  - intros i y Hy. apply Hiff in Hy as [Hy|[-> ->]]; [apply Hb; exact Hy|auto].
Qed.

Lemma start_of_app x i : x <> [] -> start_of (x ++ [i]) = start_of x.
Proof. destruct x; [congruence|reflexivity]. Qed.

Lemma end_of_app x i : end_of (x ++ [i]) = i.
Proof. unfold end_of. apply last_last. Qed.

Lemma increasing_app x i :
  increasing x = true -> end_of x < i -> increasing (x ++ [i]) = true.
Proof.
  unfold end_of. induction x as [|a x IH]; intros Hx Hi; [reflexivity|].
  destruct x as [|b x].
  - simpl in *. apply andb_true_intro. split; [apply Nat.ltb_lt; exact Hi|reflexivity].
  - simpl in Hx. apply andb_prop in Hx as [Hab Hx].
    change (increasing (a :: (b :: x) ++ [i]) = true).
    simpl ((b :: x) ++ [i]). simpl. rewrite Hab. simpl. apply IH; [exact Hx|exact Hi].
Qed.

Lemma search_post_refl W mr : words_ok mr -> search_post W mr mr.
Proof.
  intros H. split; [exists (mr_words mr); symmetry; apply set_words_eta|].
  split; [exact H|]. split; [auto|auto].
Qed.

Lemma search_post_trans W mr0 mr1 mr2 :
  search_post W mr0 mr1 -> search_post W mr1 mr2 -> search_post W mr0 mr2.
Proof.
  intros [[w1 ->] [_ [Hb1 Hn1]]] [[w2 ->] [Hok2 [Hb2 Hn2]]].
  split; [exists w2; reflexivity|]. split; [exact Hok2|]. split.
  - intros i y Hy. apply Hb2 in Hy as [Hy|Hy]; [apply Hb1; exact Hy|right; exact Hy].
  - intros Hnone. rewrite Hn2 by exact Hnone. apply Hn1. exact Hnone.
Qed.

Lemma config_ok_set_words mr w : config_ok mr -> config_ok (set_words mr w).
Proof. intros H. exact H. Qed.

Lemma print_word_matches_rest_spec W : forall rest start index indices mr,
  config_ok mr -> words_ok mr ->
  indices <> [] -> start_of indices = start -> end_of indices = index ->
  increasing indices = true ->
  (exists pre, W = pre ++ rest /\ map (nth_error (mr_phrase mr)) indices = map Some pre) ->
  (exists c, nth_error (mr_phrase mr) index = Some c /\ is_letter c = true) ->
  (exists c, nth_error (mr_phrase mr) start = Some c /\ is_letter c = true) ->
  exists mr', print_word_matches_rest rest start index indices mr = Ok mr' /\
              search_post W mr mr'.
Proof.
  induction rest as [|c rest IH];
    intros start index indices mr Hcfg Hok Hne Hs He Hinc [pre [HW Hpre]]
           [ci [Hci Hli]] [cs [Hcs Hls]].
  - destruct (add_match_ok mr indices start cs Hok Hcs Hls Hne Hs Hinc)
      as [w [Hadd [Hok' Hiff]]].
    exists (set_words mr w). split; [exact Hadd|].
    assert (Hpl : placement_of (mr_phrase mr) W indices).
    { split; [exact Hinc|]. rewrite app_nil_r in HW. subst W. exact Hpre. }
    split; [eauto|]. split; [exact Hok'|]. split.
    + intros i y Hy. apply Hiff in Hy as [Hy|[-> ->]]; [left; exact Hy|right; auto].
    + intros Hnone. exfalso. exact (Hnone indices Hpl).
  - simpl. destruct Hcfg as [Hmaps Hinit].
    destruct (make_letter_maps_spec (mr_phrase mr) index ci Hci)
      as [om [Hom [_ Hsome]]].
    destruct (Hsome Hli) as [m [-> Hm]].
    rewrite Hmaps, Hom, Hm.
    destruct (rev (later_positions (mr_phrase mr) index c)) as [|j js] eqn:Er.
    { exists mr. split; [reflexivity|]. apply search_post_refl. exact Hok. }
    simpl nonempty. rewrite <- Er.
    apply (res_fold_left_inv (search_post W mr)); [apply search_post_refl; exact Hok|].
    intros s i Hi Hpost.
    apply in_rev, in_later_positions in Hi as [Hi [Hpi Hlc]].
    pose proof Hpost as [[w ->] [Hoks _]].
    destruct (IH start i (indices ++ [i]) (set_words mr w)) as [s' [Hrun Hpost']].
    + exact (conj Hmaps Hinit).
    + exact Hoks.
    + destruct indices; discriminate.
    + rewrite start_of_app; assumption.
    + apply end_of_app.
    + apply increasing_app; [exact Hinc|lia].
    + exists (pre ++ [c]). split; [rewrite <- app_assoc; exact HW|].
      simpl. rewrite !map_app, Hpre. simpl. rewrite Hpi. reflexivity.
    + exists c. split; assumption.
    + exists cs. split; assumption.
    + exists s'. split; [exact Hrun|]. eapply search_post_trans; [exact Hpost|exact Hpost'].
Qed.

Lemma match_word_spec mr W :
  config_ok mr -> words_ok mr -> W <> [] ->
  exists mr', match_word mr W = Ok mr' /\ search_post W mr mr'.
Proof.
  intros Hcfg Hok HW. destruct W as [|w0 W']; [congruence|].
  unfold match_word. pose proof Hcfg as [Hmaps Hinit].
  destruct (mr_initial_map mr w0) as [l|] eqn:Hl.
  2: { exists mr. split; [reflexivity|]. apply search_post_refl. exact Hok. }
  apply (res_fold_left_inv (search_post (w0 :: W') mr)); [apply search_post_refl; exact Hok|].
  intros s i Hi Hpost. destruct (Hinit w0 l Hl i Hi) as [Hpi Hlw].
  pose proof Hpost as [[w ->] [Hoks _]].
  unfold print_word_matches. simpl skipn.
  destruct (print_word_matches_rest_spec (w0 :: W') W' i i [i] (set_words mr w))
    as [s' [Hrun Hpost']].
  - exact Hcfg.
  - exact Hoks.
  - discriminate.
  - reflexivity.
  - reflexivity.
  - reflexivity.
  - exists [w0]. split; [reflexivity|]. simpl. rewrite Hpi. reflexivity.
  - exists w0. split; assumption.
  - exists w0. split; assumption.
  - exists s'. split; [exact Hrun|]. eapply search_post_trans; [exact Hpost|exact Hpost'].
Qed.

Lemma new_MatchResults_ok phrase count allow_less :
  config_ok (new_MatchResults phrase count allow_less) /\
  words_ok (new_MatchResults phrase count allow_less).
Proof.
  split; [split; [reflexivity|apply make_initial_map_ok]|].
  split; [|split].
  - simpl. apply length_map.
  - intros j c Hj Hl. simpl. rewrite nth_error_map. simpl in Hj. rewrite Hj. simpl.
    rewrite Hl. eauto.
  - intros i x Hx. exfalso. unfold bucket in Hx. simpl in Hx. rewrite nth_error_map in Hx.
    destruct (nth_error _ i) as [c|]; simpl in Hx; [|exact Hx].
    destruct (is_letter c); exact Hx.
Qed.

Lemma match_words_ok : forall ws mr mr',
  config_ok mr -> words_ok mr -> res_fold_left match_word ws mr = Ok mr' ->
  config_ok mr' /\ words_ok mr' /\ exists w, mr' = set_words mr w.
Proof.
  induction ws as [|W ws IH]; intros mr mr' Hcfg Hok Hrun.
  - simpl in Hrun. injection Hrun as <-. split; [exact Hcfg|]. split; [exact Hok|].
    exists (mr_words mr). symmetry. apply set_words_eta.
  - simpl in Hrun. destruct W as [|w0 W'].
    + discriminate.
    + destruct (match_word_spec mr (w0 :: W') Hcfg Hok ltac:(discriminate))
        as [mr1 [Hm [[w1 ->] [Hok1 _]]]].
      rewrite Hm in Hrun. simpl in Hrun.
      destruct (IH _ _ (config_ok_set_words mr w1 Hcfg) Hok1 Hrun) as [H1 [H2 [w2 ->]]].
      split; [exact H1|]. split; [exact H2|]. exists w2. reflexivity.
Qed.

Lemma increasing_start_end x : x <> [] -> increasing x = true -> start_of x <= end_of x.
Proof.
  unfold start_of, end_of. induction x as [|a x IH]; intros Hne Hinc; [congruence|].
  destruct x as [|b x]; [simpl; lia|].
  simpl in Hinc. apply andb_prop in Hinc as [Hab Hinc]. apply Nat.ltb_lt in Hab.
  specialize (IH ltac:(discriminate) Hinc). simpl in IH |- *. lia.
Qed.

Lemma words_ok_wf mr : words_ok mr -> table_wf mr.
Proof.
  intros [Hlen [_ Hb]]. split; [exact Hlen|].
  intros i x Hx. destruct (Hb i x Hx) as [Hne [Hs Hinc]].
  split; [exact Hne|]. split; [exact Hs|].
  rewrite <- Hs. apply increasing_start_end; assumption.
Qed.

Lemma build_matches_ok wm phrase count allow_less mr :
  build_matches wm phrase count allow_less = Ok mr ->
  config_ok mr /\ words_ok mr /\ table_wf mr /\
  mr_phrase mr = lower phrase /\ mr_count mr = count /\ mr_allow_less mr = allow_less.
Proof.
  unfold build_matches. intros H.
  destruct (trim_dictionary _ _ _) as [trimmed|e]; [|discriminate]. simpl in H.
  destruct (new_MatchResults_ok phrase count allow_less) as [Hcfg Hok].
  destruct (match_words_ok _ _ _ Hcfg Hok H) as [H1 [H2 [w ->]]].
  split; [exact H1|]. split; [exact H2|]. split; [apply words_ok_wf; exact H2|].
  repeat split.
Qed.

(** ** Letter inventories and the pre-filter *)

Lemma find_letter (g : ascii -> ascii * Z) L :
  (forall l, fst (g l) = l) -> forall ls, In L ls ->
  find (fun kv => Ascii.eqb (fst kv) L) (map g ls) = Some (g L).
Proof.
  intros Hg. induction ls as [|a ls IH]; intros H; [destruct H|].
  cbn [map find]. rewrite Hg. destruct (Ascii.eqb a L) eqn:E.
  - apply Ascii.eqb_eq in E. subst. reflexivity.
  - apply IH. destruct H as [->|H]; [rewrite Ascii.eqb_refl in E; discriminate|exact H].
Qed.

Lemma inv_get_init w L : w <> [] -> In L ascii_lowercase ->
  inv_get (LetterInventory_init w) L = Ok (Z.of_nat (count_occ ascii_dec w L)).
Proof.
  intros Hw HL. destruct w as [|a w']; [congruence|].
  unfold inv_get, LetterInventory_init. cbn [letters].
  rewrite find_letter; [reflexivity|reflexivity|exact HL].
Qed.

Lemma inv_sub_loop_ok p w : p <> [] -> w <> [] -> forall ls diff,
  incl ls ascii_lowercase ->
  exists r, inv_sub_loop (LetterInventory_init p) (LetterInventory_init w) ls diff = Ok r /\
    (r = None -> exists L, In L ls /\ count_occ ascii_dec p L < count_occ ascii_dec w L).
Proof.
  intros Hp Hw. induction ls as [|L ls IH]; intros diff Hincl.
  - exists (Some {| letters := diff |}). split; [reflexivity|discriminate].
  - cbn [inv_sub_loop].
    rewrite (inv_get_init p L Hp), (inv_get_init w L Hw) by (apply Hincl; left; reflexivity).
    cbn [bind].
    destruct (Z.of_nat _ - Z.of_nat _ <? 0)%Z eqn:E.
    + exists None. split; [reflexivity|]. intros _. exists L. split; [left; reflexivity|].
      apply Z.ltb_lt in E. lia.
    + destruct (IH (diff ++ [(L, (Z.of_nat (count_occ ascii_dec p L)
                                 - Z.of_nat (count_occ ascii_dec w L))%Z)]))
        as (r & Hr & Hn).
      { intros x Hx. apply Hincl. right. exact Hx. }
      exists r. split; [exact Hr|]. intros Hnone.
      destruct (Hn Hnone) as (L' & HL' & Hlt). exists L'. split; [right; exact HL'|exact Hlt].
Qed.

(** Subtracting a non-empty word never raises; it gives None only when the
    phrase is empty or lacks some letter of the word. *)
Lemma inv_sub_init_ok p w : w <> [] ->
  exists r, inv_sub (LetterInventory_init p) (LetterInventory_init w) = Ok r /\
    (r = None -> p = [] \/
       exists L, In L ascii_lowercase /\ count_occ ascii_dec p L < count_occ ascii_dec w L).
Proof.
  intros Hw. destruct p as [|a p'].
  - exists None. split; [|left; reflexivity]. destruct w; [congruence|reflexivity].
  - destruct (inv_sub_loop_ok (a :: p') w ltac:(discriminate) Hw ascii_lowercase []
                (incl_refl _)) as (r & Hr & Hn).
    exists r. split.
    + rewrite <- Hr. destruct w; [congruence|reflexivity].
    + intros H. right. apply Hn, H.
Qed.

(** Subtracting the empty word raises [KeyError]: its inventory has no keys. *)
Lemma inv_sub_empty p :
  inv_sub (LetterInventory_init p) (LetterInventory_init []) = Raise KeyError.
Proof. destruct p; reflexivity. Qed.

Lemma increasing_lt x l : increasing (x :: l) = true -> Forall (lt x) l.
Proof.
  revert x. induction l as [|y l IH]; intros x H; [constructor|].
  change ((x <? y) && increasing (y :: l) = true) in H.
  apply andb_prop in H as [Hxy Hl]. apply Nat.ltb_lt in Hxy.
  constructor; [exact Hxy|].
  apply IH in Hl. eapply Forall_impl; [|exact Hl]. intros z Hz. lia.
Qed.

Lemma increasing_NoDup l : increasing l = true -> NoDup l.
Proof.
  induction l as [|x l IH]; intros H; constructor.
  - intros Hin. apply increasing_lt in H. rewrite Forall_forall in H.
    specialize (H x Hin). lia.
  - apply IH. destruct l as [|y l]; [reflexivity|].
    change ((x <? y) && increasing (y :: l) = true) in H. apply andb_prop in H. tauto.
Qed.

Lemma count_has_letter p L : forall y w, map (nth_error p) y = map Some w ->
  count_occ ascii_dec w L = length (filter (has_letter p L) y).
Proof.
  induction y as [|j y IH]; intros w H; destruct w as [|a w]; try discriminate;
    [reflexivity|].
  cbn [map] in H. injection H as Hj Hy.
  cbn [count_occ filter]. rewrite (IH w Hy).
  replace (has_letter p L j) with (Ascii.eqb a L) by (unfold has_letter; rewrite Hj; reflexivity).
  destruct (ascii_dec a L) as [->|Hne].
  - rewrite Ascii.eqb_refl. reflexivity.
  - apply Ascii.eqb_neq in Hne. rewrite Hne. reflexivity.
Qed.

Lemma map_nth_error_seq (p : list ascii) :
  map (nth_error p) (seq 0 (length p)) = map Some p.
Proof.
  induction p as [|a p IH]; [reflexivity|].
  cbn [length seq map]. f_equal.
  rewrite <- seq_shift, map_map. exact IH.
Qed.

(** A placement of [w] uses each letter at most as often as the phrase has it. *)
Lemma placement_count p w y L : placement_of p w y ->
  count_occ ascii_dec w L <= count_occ ascii_dec p L.
Proof.
  intros [Hinc Hmap].
  rewrite (count_has_letter p L y w Hmap),
          (count_has_letter p L (seq 0 (length p)) p (map_nth_error_seq p)).
  apply NoDup_incl_length.
  - apply NoDup_filter, increasing_NoDup, Hinc.
  - intros j Hj. apply filter_In in Hj as [_ Hjl]. apply filter_In. split; [|exact Hjl].
    apply in_seq. split; [lia|]. rewrite Nat.add_0_l.
    unfold has_letter in Hjl. destruct (nth_error p j) eqn:E; [|discriminate].
    apply nth_error_Some. congruence.
Qed.

(** A word dropped by the pre-filter has no placement in the phrase. *)
Lemma keep_false_no_placement p w : w <> [] -> keep p w = false ->
  forall y, ~ placement_of p w y.
Proof.
  intros Hw Hk y Hpl.
  destruct (inv_sub_init_ok p w Hw) as (r & Hr & Hn).
  unfold keep in Hk. rewrite Hr in Hk. destruct r as [d|]; [discriminate|].
  destruct (Hn eq_refl) as [->|(L & _ & Hlt)].
  - destruct Hpl as [_ Hmap]. destruct w as [|a w]; [congruence|].
    destruct y as [|j y]; [discriminate|].
    destruct j; cbn in Hmap; discriminate.
  - pose proof (placement_count p w y L Hpl). lia.
Qed.

Lemma trim_loop_ok p d : Forall (fun w => w <> []) d ->
  trim_loop (LetterInventory_init p) d (map LetterInventory_init d) = Ok (filter (keep p) d).
Proof.
  induction d as [|w d IH]; intros Hd; [reflexivity|].
  inversion Hd as [|? ? Hw Hd']; subst.
  cbn [trim_loop map]. destruct (inv_sub_init_ok p w Hw) as (r & Hr & _).
  rewrite Hr. cbn [bind]. rewrite (IH Hd'). cbn [bind filter].
  unfold keep. rewrite Hr. destruct r; reflexivity.
Qed.

Lemma trim_loop_empty p d1 d2 : Forall (fun w => w <> []) d1 ->
  trim_loop (LetterInventory_init p) (d1 ++ [] :: d2)
            (map LetterInventory_init (d1 ++ [] :: d2)) = Raise KeyError.
Proof.
  induction d1 as [|w d1 IH]; intros Hd.
  - cbn [app trim_loop map]. rewrite inv_sub_empty. reflexivity.
  - inversion Hd as [|? ? Hw Hd']; subst. cbn [app trim_loop map].
    destruct (inv_sub_init_ok p w Hw) as (r & Hr & _). rewrite Hr. cbn [bind].
    rewrite (IH Hd'). reflexivity.
Qed.

Lemma lower_nonempty w : w <> ""%string -> lower w <> [].
Proof. destruct w; [congruence|]. intros _. unfold lower. simpl. discriminate. Qed.

Lemma lower_nonempty_all d : Forall (fun w => w <> ""%string) d ->
  Forall (fun w => w <> []) (map lower d).
Proof.
  intros Hd. apply Forall_map. eapply Forall_impl; [|exact Hd]. exact lower_nonempty.
Qed.

(** Searching the words the pre-filter keeps gives the same table as
    searching all of them. *)
Lemma fold_trim_equiv p : forall d mr, config_ok mr -> words_ok mr -> mr_phrase mr = p ->
  Forall (fun w => w <> []) d ->
  res_fold_left match_word (filter (keep p) d) mr = res_fold_left match_word d mr.
Proof.
  induction d as [|w d IH]; intros mr Hc Hw Hp Hd; [reflexivity|].
  inversion Hd as [|? ? Hne Hd']; subst.
  destruct (match_word_spec mr w Hc Hw Hne) as (mr1 & Hm & [w1 ->] & Hw1 & _ & Hnone).
  cbn [filter]. destruct (keep (mr_phrase mr) w) eqn:Ek.
  - cbn [res_fold_left]. rewrite Hm. cbn [bind].
    apply IH; [apply config_ok_set_words, Hc|exact Hw1|reflexivity|exact Hd'].
  - rewrite (IH mr Hc Hw eq_refl Hd'). cbn [res_fold_left]. rewrite Hm. cbn [bind].
    rewrite (Hnone (keep_false_no_placement _ _ Hne Ek)). reflexivity.
Qed.

(** ** Consequences for the enumeration *)

Lemma multiplicity_stored mr c :
  multiplicity mr c <> 0 -> forall p, In p c -> In p (bucket mr (start_of p)).
Proof.
  induction c as [|q c IH]; intros Hm p Hp; [destruct Hp|].
  rewrite multiplicity_cons in Hm.
  destruct Hp as [<-|Hp].
  - apply (count_occ_In placement_eq_dec). lia.
  - apply IH; [lia|exact Hp].
Qed.

Lemma multiplicity_pos mr c :
  (forall p, In p c -> In p (bucket mr (start_of p))) -> multiplicity mr c <> 0.
Proof.
  induction c as [|q c IH]; intros H; simpl; [lia|].
  assert (Hq : count_occ placement_eq_dec (bucket mr (start_of q)) q > 0)
    by (apply count_occ_In; apply H; left; reflexivity).
  assert (Hc : multiplicity mr c <> 0) by (apply IH; intros p Hp; apply H; right; exact Hp).
  change (count_occ placement_eq_dec (bucket mr (start_of q)) q * multiplicity mr c <> 0).
  lia.
Qed.

Lemma multiplicity_nodup mr c :
  (forall i, NoDup (bucket mr i)) ->
  (forall p, In p c -> In p (bucket mr (start_of p))) -> multiplicity mr c = 1.
Proof.
  intros Hnd. induction c as [|q c IH]; intros H; [reflexivity|].
  rewrite multiplicity_cons, IH by (intros p Hp; apply H; right; exact Hp).
  assert (Hq : In q (bucket mr (start_of q))) by (apply H; left; reflexivity).
  apply (count_occ_In placement_eq_dec) in Hq.
  pose proof (proj1 (NoDup_count_occ placement_eq_dec _) (Hnd (start_of q)) q). lia.
Qed.

Lemma emit_ok_iff count allow_less n :
  emit_ok count allow_less n = true <->
  (count < 1)%Z \/ Z.of_nat n = count \/ (allow_less = true /\ (Z.of_nat n < count)%Z).
Proof.
  unfold emit_ok. rewrite !orb_true_iff, andb_true_iff, Z.ltb_lt, Z.ltb_lt, Z.eqb_eq.
  tauto.
Qed.

Lemma chained_increasing mr c :
  table_wf mr -> (forall p, In p c -> In p (bucket mr (start_of p))) ->
  chained c = true -> increasing (map start_of c) = true.
Proof.
  intros Hwf. induction c as [|p c IH]; intros Hst Hch; [reflexivity|].
  destruct c as [|q c]; [reflexivity|].
  simpl in Hch. apply andb_prop in Hch as [Hpq Hch]. apply Nat.ltb_lt in Hpq.
  assert (Hp : start_of p <= end_of p).
  { pose proof (Hst p (or_introl eq_refl)) as Hin. apply (proj2 Hwf) in Hin. lia. }
  change (increasing (start_of p :: map start_of (q :: c)) = true).
  simpl map. simpl increasing. apply andb_true_intro. split; [apply Nat.ltb_lt; lia|].
  apply IH; [intros r Hr; apply Hst; right; exact Hr|exact Hch].
Qed.

Lemma count_occ_out mr out :
  table_wf mr -> iterate_all_matches mr = Ok out ->
  forall c, count_occ combination_eq_dec out c = expected_count mr c.
Proof.
  intros Hwf Hrun. destruct (iterate_all_matches_count mr Hwf) as [out' [Ho Hc]].
  rewrite Hrun in Ho. injection Ho as <-. exact Hc.
Qed.

(** * Claims *)

(** C1 (corrected). In unbounded mode ([count < 1]) the enumeration over
    all start positions yields exactly the non-empty combinations of stored
    placements that satisfy the non-overlap invariant ([chained]), so also
    every non-empty prefix of one; each is yielded [multiplicity] times,
    once per way of picking its placements among the stored entries, hence
    exactly once when no placement is stored twice. *)
Theorem C1_unbounded_enumeration dictionary phrase count allow_less mr :
  build_matches (set_dict dictionary) phrase count allow_less = Ok mr ->
  (count < 1)%Z ->
  exists out, iterate_all_matches mr = Ok out /\
    (forall c, c <> [] -> chained c = true ->
       count_occ combination_eq_dec out c = multiplicity mr c) /\
    (forall c, (c = [] \/ chained c = false) -> count_occ combination_eq_dec out c = 0) /\
    ((forall i, NoDup (bucket mr i)) ->
     forall c, c <> [] -> chained c = true ->
       (forall p, In p c -> In p (bucket mr (start_of p))) ->
       count_occ combination_eq_dec out c = 1).
Proof.
  intros Hb Hc. destruct (build_matches_ok _ _ _ _ _ Hb) as [_ [_ [Hwf [_ [Hcount _]]]]].
  destruct (iterate_all_matches_count mr Hwf) as [out [Hrun Hcnt]].
  assert (Hemit : forall n, emit_ok (mr_count mr) (mr_allow_less mr) n = true).
  { intros n. apply emit_ok_iff. left. rewrite Hcount. exact Hc. }
  exists out. split; [exact Hrun|]. split; [|split].
  - intros c Hne Hch. rewrite Hcnt. unfold expected_count.
    destruct c as [|p c']; [congruence|]. rewrite Hch, Hemit. reflexivity.
  - intros c [->|Hch]; rewrite Hcnt; [reflexivity|]. unfold expected_count.
    destruct c; [reflexivity|]. rewrite Hch. reflexivity.
  - intros Hnd c Hne Hch Hst. rewrite Hcnt. unfold expected_count.
    destruct c as [|p c']; [congruence|]. rewrite Hch, Hemit. simpl andb.
    apply multiplicity_nodup; assumption.
Qed.

(** C2. Each stack the search pushes (a non-empty chained combination of
    stored placements whose proper prefixes all allowed going deeper, i.e.
    [count < 1] or at most [count] long) is yielded if and only if
    [count < 1], or its length is [count], or [allow_less] holds and its
    length is below [count]. *)
Theorem C2_emission_rule dictionary phrase count allow_less mr out :
  build_matches (set_dict dictionary) phrase count allow_less = Ok mr ->
  iterate_all_matches mr = Ok out ->
  forall c, c <> [] -> chained c = true ->
  (forall p, In p c -> In p (bucket mr (start_of p))) ->
  ((count < 1)%Z \/ (Z.of_nat (length c) <= count)%Z) ->
  (In c out <->
   (count < 1)%Z \/ Z.of_nat (length c) = count \/
   (allow_less = true /\ (Z.of_nat (length c) < count)%Z)).
Proof.
  intros Hb Hrun c Hne Hch Hst _.
  destruct (build_matches_ok _ _ _ _ _ Hb) as [_ [_ [Hwf [_ [Hcount Hal]]]]].
  rewrite (count_occ_In combination_eq_dec), (count_occ_out mr out Hwf Hrun).
  rewrite <- emit_ok_iff, <- Hcount, <- Hal. unfold expected_count.
  destruct c as [|p c']; [congruence|]. rewrite Hch. simpl andb.
  pose proof (multiplicity_pos mr _ Hst).
  destruct (emit_ok _ _ _); split; intros H'; try lia; try reflexivity; discriminate.
Qed.

(** C4. Every combination yielded has its placements in increasing order of
    start index, and each placement starts strictly after the last index of
    the one before it. *)
Theorem C4_combinations_ordered dictionary phrase count allow_less mr out :
  build_matches (set_dict dictionary) phrase count allow_less = Ok mr ->
  iterate_all_matches mr = Ok out ->
  forall c, In c out -> chained c = true /\ increasing (map start_of c) = true.
Proof.
  intros Hb Hrun c Hin.
  destruct (build_matches_ok _ _ _ _ _ Hb) as [_ [_ [Hwf _]]].
  apply (count_occ_In combination_eq_dec) in Hin.
  rewrite (count_occ_out mr out Hwf Hrun) in Hin. unfold expected_count in Hin.
  destruct c as [|p c']; [lia|].
  destruct (chained (p :: c')) eqn:Hch; [|cbn [andb] in Hin; lia].
  destruct (emit_ok _ _ _); cbn [andb] in Hin; [|lia].
  split; [reflexivity|]. apply (chained_increasing mr); [exact Hwf| |exact Hch].
  apply multiplicity_stored. lia.
Qed.

(** C6. With [count = K >= 1] and [allow_less] false, every combination
    yielded has exactly [K] placements; for the phrase "a a" and the
    dictionary {"a"} with [count = 2] the only one is [[0]; [2]]. *)
Theorem C6_exact_mode :
  (forall dictionary phrase count mr out,
     build_matches (set_dict dictionary) phrase count false = Ok mr ->
     (1 <= count)%Z ->
     iterate_all_matches mr = Ok out ->
     forall c, In c out -> Z.of_nat (length c) = count) /\
  find_combinations ["a"%string] "a a" 2 false = Ok [[[0]; [2]]].
Proof.
  split; [|vm_compute; reflexivity].
  intros dictionary phrase count mr out Hb Hk Hrun c Hin.
  destruct (build_matches_ok _ _ _ _ _ Hb) as [_ [_ [Hwf [_ [Hcount Hal]]]]].
  apply (count_occ_In combination_eq_dec) in Hin.
  rewrite (count_occ_out mr out Hwf Hrun) in Hin. unfold expected_count in Hin.
  destruct c as [|p c']; [lia|].
  destruct (emit_ok _ _ _) eqn:He; [|rewrite andb_false_r in Hin; lia].
  apply emit_ok_iff in He. rewrite Hcount, Hal in He. lia.
Qed.

(** C8. The enumeration always finishes: for every start position,
    [length phrase] levels of recursion are enough, and [count] levels are
    enough when [count >= 1]. *)
Theorem C8_enumeration_terminates dictionary phrase count allow_less mr :
  build_matches (set_dict dictionary) phrase count allow_less = Ok mr ->
  (exists out, iterate_all_matches mr = Ok out) /\
  (forall i, i < length (mr_phrase mr) ->
     exists o, iterate_matches_ (length (mr_phrase mr)) mr i [] = Ok o) /\
  ((1 <= count)%Z -> forall i, i < length (mr_phrase mr) ->
     exists o, iterate_matches_ (Z.to_nat count) mr i [] = Ok o).
Proof.
  intros Hb. destruct (build_matches_ok _ _ _ _ _ Hb) as [_ [_ [Hwf [_ [Hcount _]]]]].
  split; [destruct (iterate_all_matches_count mr Hwf) as [out [Ho _]]; eauto|].
  split.
  - intros i Hi. apply iterate_matches_depth_phrase; assumption.
  - intros Hk i Hi. apply iterate_matches_depth_count; [exact Hwf|exact Hi|].
    simpl length. rewrite Hcount. lia.
Qed.

(** C1 refuted as stated: with a dictionary holding a word twice, the same
    combination is yielded twice. *)
Lemma C1_counterexample :
  find_combinations ["a"; "a"]%string "a" 0 true = Ok [[[0]]; [[0]]] /\
  count_occ combination_eq_dec [[[0]]; [[0]]] [[0]] = 2.
Proof. split; [vm_compute; reflexivity|reflexivity]. Qed.

Lemma C1_unbounded_enumeration_witness :
  exists mr, build_matches (set_dict ["c"; "a"; "t"; "ca"; "at"; "cat"]%string) "cat" 0 true
             = Ok mr /\
  exists out, iterate_all_matches mr = Ok out /\
    (forall c, c <> [] -> chained c = true ->
       count_occ combination_eq_dec out c = multiplicity mr c) /\
    (forall c, (c = [] \/ chained c = false) -> count_occ combination_eq_dec out c = 0) /\
    ((forall i, NoDup (bucket mr i)) ->
     forall c, c <> [] -> chained c = true ->
       (forall p, In p c -> In p (bucket mr (start_of p))) ->
       count_occ combination_eq_dec out c = 1).
Proof.
  destruct (build_matches (set_dict ["c"; "a"; "t"; "ca"; "at"; "cat"]%string) "cat" 0 true)
    as [mr|e] eqn:E.
  - exists mr. split; [reflexivity|].
    apply (C1_unbounded_enumeration _ _ _ _ mr E). lia.
  - vm_compute in E. discriminate.
Defined.

Lemma C2_emission_rule_witness :
  exists mr out, build_matches (set_dict ["a"]%string) "a a" 2 false = Ok mr /\
    iterate_all_matches mr = Ok out /\
    (In [[0]] out <->
     (2 < 1)%Z \/ Z.of_nat (length [[0]]) = 2%Z \/
     (false = true /\ (Z.of_nat (length [[0]]) < 2)%Z)).
Proof.
  destruct (build_matches (set_dict ["a"]%string) "a a" 2 false) as [mr|e] eqn:E;
    [|vm_compute in E; discriminate].
  destruct (iterate_all_matches mr) as [out|e] eqn:E2;
    [|vm_compute in E; injection E as <-; vm_compute in E2; discriminate].
  exists mr, out. split; [reflexivity|]. split; [exact E2|].
  apply (C2_emission_rule _ _ _ _ mr out E E2 [[0]]).
  - discriminate.
  - reflexivity.
  - intros p [<-|[]]. vm_compute in E. injection E as <-. vm_compute. left. reflexivity.
  - right. simpl. lia.
Defined.

Lemma C4_combinations_ordered_witness :
  exists mr out, build_matches (set_dict ["a"]%string) "a a" 0 true = Ok mr /\
    iterate_all_matches mr = Ok out /\
    chained [[0]; [2]] = true /\ increasing (map start_of [[0]; [2]]) = true.
Proof.
  destruct (build_matches (set_dict ["a"]%string) "a a" 0 true) as [mr|e] eqn:E;
    [|vm_compute in E; discriminate].
  destruct (iterate_all_matches mr) as [out|e] eqn:E2;
    [|vm_compute in E; injection E as <-; vm_compute in E2; discriminate].
  exists mr, out. split; [reflexivity|]. split; [exact E2|].
  apply (C4_combinations_ordered _ _ _ _ mr out E E2).
  vm_compute in E. injection E as <-. vm_compute in E2. injection E2 as <-.
  simpl. tauto.
Defined.

Lemma C8_enumeration_terminates_witness :
  exists mr, build_matches (set_dict ["c"; "a"; "t"; "ca"; "at"; "cat"]%string) "cat" 2 true
             = Ok mr /\
  (exists out, iterate_all_matches mr = Ok out) /\
  (forall i, i < length (mr_phrase mr) ->
     exists o, iterate_matches_ (length (mr_phrase mr)) mr i [] = Ok o) /\
  ((1 <= 2)%Z -> forall i, i < length (mr_phrase mr) ->
     exists o, iterate_matches_ (Z.to_nat 2) mr i [] = Ok o).
Proof.
  destruct (build_matches (set_dict ["c"; "a"; "t"; "ca"; "at"; "cat"]%string) "cat" 2 true)
    as [mr|e] eqn:E; [|vm_compute in E; discriminate].
  exists mr. split; [reflexivity|]. apply (C8_enumeration_terminates _ _ _ _ mr E).
Defined.

Lemma C6_exact_mode_witness :
  exists mr out, build_matches (set_dict ["a"]%string) "a a" 2 false = Ok mr /\
    iterate_all_matches mr = Ok out /\
    (forall c, In c out -> Z.of_nat (length c) = 2%Z).
Proof.
  destruct (build_matches (set_dict ["a"]%string) "a a" 2 false) as [mr|e] eqn:E;
    [|vm_compute in E; discriminate].
  destruct (iterate_all_matches mr) as [out|e] eqn:E2;
    [|vm_compute in E; injection E as <-; vm_compute in E2; discriminate].
  exists mr, out. split; [reflexivity|]. split; [exact E2|].
  apply (proj1 C6_exact_mode _ _ _ mr out E); [lia|exact E2].
Defined.

(** C3: starting from any table reachable by the search (a fresh table for
    [phrase] after searching some words [ws]), searching one more word [W]
    only stores placements of [W]: each new entry of bucket [i] is a strictly
    increasing list of indices, as long as [W], whose case-folded phrase
    characters spell [W], and whose first index is [i]. *)
Theorem C3_placements_spell_word phrase count allow_less ws mr W mr' :
  res_fold_left match_word ws (new_MatchResults phrase count allow_less) = Ok mr ->
  match_word mr W = Ok mr' ->
  forall i y, In y (bucket mr' i) ->
    In y (bucket mr i) \/
    (increasing y = true /\ length y = length W /\
     map (nth_error (lower phrase)) y = map Some W /\ start_of y = i).
Proof.
  intros Hf Hm i y Hy.
  destruct (new_MatchResults_ok phrase count allow_less) as [Hc0 Hw0].
  destruct (match_words_ok ws _ _ Hc0 Hw0 Hf) as (Hc & Hw & w & ->).
  destruct W as [|a W'].
  { discriminate Hm. }
  destruct (match_word_spec _ (a :: W') Hc Hw) as (mr1 & Hm1 & _ & _ & Hpost & _);
    [discriminate|].
  rewrite Hm in Hm1. injection Hm1 as <-.
  destruct (Hpost i y Hy) as [Hin|[[Hinc Hmap] Hst]]; [left; exact Hin|right].
  refine (conj Hinc (conj _ (conj Hmap Hst))).
  rewrite <- (length_map (nth_error (lower phrase)) y), <- (length_map Some (a :: W')).
  f_equal. exact Hmap.
Qed.

(** C5, as the code builds it: the letter-map list has one entry per phrase
    position (so there is no entry at position N); the entry at a non-letter
    position is None; the entry at a letter position [i] maps each letter [L]
    to the positions strictly after [i] holding [L], in decreasing order, and
    has no key [L] when there is none. *)
Theorem C5_letter_maps p :
  length (make_letter_maps p) = length p /\
  forall i c, nth_error p i = Some c ->
    (is_letter c = false -> nth_error (make_letter_maps p) i = Some None) /\
    (is_letter c = true -> exists m, nth_error (make_letter_maps p) i = Some (Some m) /\
       forall L, m L = nonempty (rev (later_positions p i L))).
Proof.
  split; [apply make_letter_maps_length|].
  intros i c Hc.
  destruct (make_letter_maps_spec p i c Hc) as (om & Hom & Hnl & Hl).
  split.
  - intros Hf. rewrite Hom, (Hnl Hf). reflexivity.
  - intros Ht. destruct (Hl Ht) as (m & -> & Hm). exists m. split; [exact Hom|exact Hm].
Qed.

(** C5 refuted as stated: for the phrase "aa" the entry at position 0 maps
    'a' to [1] only (not to the positions >= 0, [0; 1]), and there is no
    entry at position N = 2. *)
Lemma C5_counterexample :
  nth_error (make_letter_maps (lower "aa")) 2 = None /\
  exists m, nth_error (make_letter_maps (lower "aa")) 0 = Some (Some m) /\
    m "a"%char = Some [1] /\ m "a"%char <> Some [0; 1].
Proof.
  split; [reflexivity|].
  eexists. split; [reflexivity|]. split; [reflexivity|discriminate].
Qed.

Lemma C3_placements_spell_word_witness :
  exists mr mr', res_fold_left match_word [] (new_MatchResults "cat" 0 true) = Ok mr /\
    match_word mr (lower "ca") = Ok mr' /\
    (In [0; 1] (bucket mr 0) \/
     (increasing [0; 1] = true /\ length [0; 1] = length (lower "ca") /\
      map (nth_error (lower "cat")) [0; 1] = map Some (lower "ca") /\ start_of [0; 1] = 0)).
Proof.
  destruct (match_word (new_MatchResults "cat" 0 true) (lower "ca")) as [mr'|e] eqn:E;
    [|vm_compute in E; discriminate].
  exists (new_MatchResults "cat" 0 true), mr'. split; [reflexivity|]. split; [exact E|].
  apply (C3_placements_spell_word "cat" 0 true [] _ (lower "ca") mr' eq_refl E 0 [0; 1]).
  vm_compute in E. injection E as <-. vm_compute. left. reflexivity.
Defined.

(** C7, a defect of the code: when the dictionary holds the empty word
    (after any number of non-empty words), the search does not return an
    empty result for it but raises [KeyError]: [LetterInventory("")] has no
    letter counts, and [LetterInventory.sub] called by [trim_dictionary]
    looks its letters up. *)
Theorem C7_empty_word_raises d1 d2 phrase count allow_less :
  Forall (fun w => w <> ""%string) d1 ->
  find_combinations (d1 ++ ""%string :: d2) phrase count allow_less = Raise KeyError.
Proof.
  intros Hd.
  unfold find_combinations, print_matches, build_matches, trim_dictionary, set_dict.
  cbn [wm_dictionary wm_inventories].
  rewrite map_app. cbn [map]. change (lower "") with (@nil ascii).
  rewrite trim_loop_empty by (apply lower_nonempty_all; exact Hd).
  reflexivity.
Qed.

(** C9, as the code handles it: when reading the dictionary fails with
    exception [e], [main] reports "Error loading dictionary" and returns
    normally if [e] is [FileNotFoundError]; any other exception propagates
    out of [main]. *)
Theorem C9_dictionary_errors fs dictionary phrase count allow_less e :
  fs (dict_path dictionary) = Raise e ->
  main_with_phrase fs dictionary phrase count allow_less =
    match e with
    | FileNotFoundError => Ok (Reported "Error loading dictionary")
    | _ => Raise e
    end.
Proof.
  intros H. unfold main_with_phrase, WordMatcher_init, read_dict. rewrite H.
  destruct e; reflexivity.
Qed.

(** C9 refuted as stated: a dictionary that exists but cannot be read
    (permission denied) makes [main] raise. *)
Lemma C9_counterexample :
  main_with_phrase (fun _ => Raise PermissionError) None "cat" 0 true = Raise PermissionError.
Proof. reflexivity. Qed.

(** C10: for a dictionary of non-empty words, the [trim_dictionary]
    pre-filter changes neither the table of placements nor the produced
    sequence of combinations. *)
Theorem C10_trim_preserves_search dictionary phrase count allow_less :
  Forall (fun w => w <> ""%string) dictionary ->
  build_matches (set_dict dictionary) phrase count allow_less =
    build_matches_untrimmed (set_dict dictionary) phrase count allow_less /\
  print_matches (set_dict dictionary) phrase count allow_less =
    print_matches_untrimmed (set_dict dictionary) phrase count allow_less.
Proof.
  intros Hd.
  assert (Hb : build_matches (set_dict dictionary) phrase count allow_less =
               build_matches_untrimmed (set_dict dictionary) phrase count allow_less).
  { unfold build_matches, build_matches_untrimmed, trim_dictionary, set_dict.
    cbn [wm_dictionary wm_inventories].
    rewrite trim_loop_ok by (apply lower_nonempty_all; exact Hd). cbn [bind].
    destruct (new_MatchResults_ok phrase count allow_less) as [Hc Hw].
    apply fold_trim_equiv;
      [exact Hc|exact Hw|reflexivity|apply lower_nonempty_all; exact Hd]. }
  split; [exact Hb|].
  unfold print_matches, print_matches_untrimmed. rewrite Hb. reflexivity.
Qed.

Lemma C5_letter_maps_witness :
  length (make_letter_maps (lower "cat")) = 3 /\
  exists m, nth_error (make_letter_maps (lower "cat")) 0 = Some (Some m) /\
    m "t"%char = nonempty (rev (later_positions (lower "cat") 0 "t"%char)).
Proof.
  destruct (C5_letter_maps (lower "cat")) as [Hl Hall].
  split; [exact Hl|].
  destruct (proj2 (Hall 0 "c"%char eq_refl) eq_refl) as (m & Hm & HL).
  exists m. split; [exact Hm|exact (HL "t"%char)].
Defined.

Lemma C7_empty_word_raises_witness :
  Forall (fun w => w <> ""%string) ["a"%string] /\
  find_combinations (["a"%string] ++ ""%string :: []) "a" 0 true = Raise KeyError.
Proof.
  assert (H : Forall (fun w => w <> ""%string) ["a"%string])
    by (constructor; [discriminate|constructor]).
  split; [exact H|]. apply (C7_empty_word_raises ["a"%string] [] "a" 0 true H).
Defined.

Lemma C9_dictionary_errors_witness :
  (fun _ : string => Raise (A := list (list ascii)) FileNotFoundError) (dict_path None)
    = Raise FileNotFoundError /\
  main_with_phrase (fun _ => Raise FileNotFoundError) None "cat" 0 true
    = Ok (Reported "Error loading dictionary").
Proof.
  split; [reflexivity|].
  apply (C9_dictionary_errors (fun _ => Raise FileNotFoundError) None "cat" 0 true
           FileNotFoundError). reflexivity.
Defined.

Lemma C10_trim_preserves_search_witness :
  Forall (fun w => w <> ""%string) ["ca"; "dog"; "t"]%string /\
  build_matches (set_dict ["ca"; "dog"; "t"]%string) "cat" 0 true =
    build_matches_untrimmed (set_dict ["ca"; "dog"; "t"]%string) "cat" 0 true /\
  print_matches (set_dict ["ca"; "dog"; "t"]%string) "cat" 0 true =
    print_matches_untrimmed (set_dict ["ca"; "dog"; "t"]%string) "cat" 0 true.
Proof.
  assert (H : Forall (fun w => w <> ""%string) ["ca"; "dog"; "t"]%string)
    by (repeat constructor; discriminate).
  split; [exact H|]. apply (C10_trim_preserves_search _ "cat" 0 true H).
Defined.

(** * Further properties of the code *)

(** ** The initial map *)

Lemma ascii_lowercase_NoDup : NoDup ascii_lowercase.
Proof.
  unfold ascii_lowercase. simpl.
  repeat constructor; simpl; intros H; repeat (destruct H as [H|H]; [discriminate H|]); exact H.
Qed.

Lemma initial_map_inner p letter : forall js m L,
  fold_left (fun m i => if Ascii.eqb (nth i p " "%char) letter
                        then dict_append m letter i else m) js m L =
  if Ascii.eqb L letter
  then extend_entry (m letter) (filter (fun i => Ascii.eqb (nth i p " "%char) letter) js)
  else m L.
Proof.
  induction js as [|j js IH]; intros m L; simpl.
  - destruct (Ascii.eqb L letter) eqn:E; [|reflexivity].
    apply Ascii.eqb_eq in E. subst L. unfold extend_entry.
    destruct (m letter); [rewrite app_nil_r|]; reflexivity.
  - rewrite IH. destruct (Ascii.eqb (nth j p " "%char) letter) eqn:Ej.
    + unfold dict_append at 1. rewrite Ascii.eqb_refl.
      destruct (Ascii.eqb L letter) eqn:E; [|unfold dict_append; rewrite E; reflexivity].
      unfold extend_entry. destruct (m letter); simpl; [rewrite <- app_assoc|]; reflexivity.
    + reflexivity.
Qed.

Lemma initial_map_outer p : forall ls m L, NoDup ls ->
  fold_left
    (fun m letter =>
       fold_left
         (fun m i => if Ascii.eqb (nth i p " "%char) letter
                     then dict_append m letter i else m)
         (range 0 (length p)) m) ls m L =
  if in_dec ascii_dec L ls
  then extend_entry (m L) (filter (fun i => Ascii.eqb (nth i p " "%char) L)
                                  (range 0 (length p)))
  else m L.
Proof.
  induction ls as [|a ls IH]; intros m L Hnd; simpl; [reflexivity|].
  inversion Hnd as [|? ? Hnin Hnd']; subst.
  rewrite (IH _ L Hnd'). rewrite !initial_map_inner.
  destruct (ascii_dec a L) as [->|Hne].
  - rewrite Ascii.eqb_refl. destruct (in_dec ascii_dec L ls); [contradiction|reflexivity].
  - assert (E : Ascii.eqb L a = false) by (apply Ascii.eqb_neq; congruence).
    rewrite E. destruct (in_dec ascii_dec L ls); reflexivity.
Qed.

Lemma filter_nth_positions p L :
  filter (fun i => Ascii.eqb (nth i p " "%char) L) (range 0 (length p)) = positions p L.
Proof.
  unfold positions. apply filter_ext_in. intros i Hi. apply in_range in Hi.
  unfold has_letter. rewrite (nth_error_nth' p " "%char) by lia. reflexivity.
Qed.

Lemma is_letter_In L : is_letter L = true <-> In L ascii_lowercase.
Proof.
  split; [|apply is_letter_lowercase].
  unfold is_letter. intros H. apply existsb_exists in H as [x [Hx E]].
  apply Ascii.eqb_eq in E. subst. exact Hx.
Qed.

Lemma make_initial_map_spec p L :
  make_initial_map p L = if is_letter L then nonempty (positions p L) else None.
Proof.
  unfold make_initial_map. rewrite initial_map_outer by apply ascii_lowercase_NoDup.
  rewrite filter_nth_positions.
  destruct (in_dec ascii_dec L ascii_lowercase) as [H|H].
  - apply is_letter_In in H. rewrite H. reflexivity.
  - destruct (is_letter L) eqn:E; [apply is_letter_In in E; contradiction|reflexivity].
Qed.

Lemma in_positions p L j : In j (positions p L) <-> has_letter p L j = true.
Proof.
  unfold positions. rewrite filter_In. split; [tauto|]. intros H. split; [|exact H].
  unfold range. apply in_seq. unfold has_letter in H.
  destruct (nth_error p j) eqn:E; [|discriminate].
  assert (j < length p) by (apply nth_error_Some; congruence). lia.
Qed.

Lemma positions_NoDup p L : NoDup (positions p L).
Proof. apply NoDup_filter, seq_NoDup. Qed.

Lemma count_occ_nodup (l : list nat) a :
  NoDup l -> count_occ Nat.eq_dec l a = if in_dec Nat.eq_dec a l then 1 else 0.
Proof.
  intros Hnd. destruct (in_dec Nat.eq_dec a l) as [H|H].
  - exact (proj1 (NoDup_count_occ' Nat.eq_dec l) Hnd a H).
  - apply (count_occ_not_In Nat.eq_dec) in H. exact H.
Qed.

(** ** Completeness of the placement search *)

Lemma nonempty_fold {A} (g : A -> nat -> res A) (l : list nat) (a : A) :
  match nonempty l with Some l' => res_fold_left g l' a | None => Ok a end =
  res_fold_left g l a.
Proof. destruct l; reflexivity. Qed.

Lemma res_fold_left_count {A B} (Inv : A -> Prop) (cnt : A -> nat)
      (g : A -> B -> res A) (f : B -> nat) : forall l a a',
  Inv a ->
  (forall a x a'', In x l -> Inv a -> g a x = Ok a'' -> Inv a'' /\ cnt a'' = cnt a + f x) ->
  res_fold_left g l a = Ok a' -> Inv a' /\ cnt a' = cnt a + list_sum (map f l).
Proof.
  induction l as [|x l IH]; intros a a' Ha Hstep Hrun; simpl in Hrun.
  - injection Hrun as <-. simpl. split; [exact Ha|lia].
  - destruct (g a x) as [a1|e] eqn:Eg; [|discriminate]. simpl in Hrun.
    destruct (Hstep a x a1 (or_introl eq_refl) Ha Eg) as [Ha1 Hc1].
    destruct (IH a1 a' Ha1 (fun a0 y a'' Hy => Hstep a0 y a'' (or_intror Hy)) Hrun)
      as [Ha' Hc']. split; [exact Ha'|]. simpl. lia.
Qed.

Lemma add_match_count mr x start mr' i y :
  add_match mr x start = Ok mr' ->
  count_occ placement_eq_dec (bucket mr' i) y =
  count_occ placement_eq_dec (bucket mr i) y +
  (if (i =? start) && placement_eqb y x then 1 else 0).
Proof.
  unfold add_match. destruct (nth_error (mr_words mr) start) as [[l|]|] eqn:E;
    try discriminate.
  intros H. injection H as <-.
  assert (Hlt : start < length (mr_words mr)) by (apply nth_error_Some; congruence).
  unfold bucket at 1. cbn [set_words mr_words]. rewrite nth_error_update_nth by exact Hlt.
  destruct (i =? start) eqn:Ei; cbn [andb]; [|rewrite Nat.add_0_r; reflexivity].
  apply Nat.eqb_eq in Ei. subst i. unfold bucket. rewrite E, count_occ_app. simpl.
  unfold placement_eqb.
  destruct (placement_eq_dec x y), (placement_eq_dec y x); subst; try congruence; lia.
Qed.

Lemma ext_count_eq p start index indices rest i y :
  ext_count p start index indices rest i y =
  if (i =? start) && placement_eqb (firstn (length indices) y) indices
     && increasing (index :: skipn (length indices) y)
     && spells p (skipn (length indices) y) rest
  then 1 else 0.
Proof. reflexivity. Qed.

Lemma ext_count_nil p start index indices i y :
  ext_count p start index indices [] i y =
  if (i =? start) && placement_eqb y indices then 1 else 0.
Proof.
  rewrite ext_count_eq. destruct (i =? start); cbn [andb]; [|reflexivity].
  unfold placement_eqb. destruct (placement_eq_dec y indices) as [->|Hne].
  - rewrite firstn_all, skipn_all.
    destruct (placement_eq_dec indices indices); [reflexivity|congruence].
  - destruct (placement_eq_dec (firstn (length indices) y) indices) as [E|];
      [|reflexivity].
    destruct (skipn (length indices) y) as [|n l] eqn:Es.
    + exfalso. apply Hne. rewrite <- (firstn_skipn (length indices) y), E, Es, app_nil_r.
      reflexivity.
    + cbn [spells]. rewrite andb_false_r. reflexivity.
Qed.

Lemma later_positions_iff p i c j : is_letter c = true ->
  In j (later_positions p i c) <-> i < j /\ has_letter p c j = true.
Proof.
  intros Hc. split.
  - intros H. apply in_later_positions in H as [Hij [Hj _]].
    split; [lia|]. unfold has_letter. rewrite Hj. apply Ascii.eqb_refl.
  - intros [Hij Hh]. unfold later_positions. apply filter_In.
    unfold has_letter in Hh. destruct (nth_error p j) as [d|] eqn:E; [|discriminate].
    apply Ascii.eqb_eq in Hh. subst d.
    assert (j < length p) by (apply nth_error_Some; congruence).
    split; [unfold range; apply in_seq; lia|]. rewrite Hc. apply Ascii.eqb_refl.
Qed.

Lemma later_positions_NoDup p i c : NoDup (later_positions p i c).
Proof. apply NoDup_filter, seq_NoDup. Qed.

Lemma firstn_skipn_S {A} : forall k (y : list A) j0 z,
  skipn k y = j0 :: z -> firstn (S k) y = firstn k y ++ [j0] /\ skipn (S k) y = z.
Proof.
  induction k as [|k IH]; intros y j0 z H.
  - simpl in H. subst y. split; reflexivity.
  - destruct y as [|a y]; [discriminate|]. simpl in H.
    destruct (IH y j0 z H) as [H1 H2]. split; [change (a :: firstn (S k) y = (a :: firstn k y) ++ [j0]); rewrite H1; reflexivity|exact H2].
Qed.

Lemma placement_eqb_app a b x y :
  placement_eqb (a ++ [x]) (b ++ [y]) = placement_eqb a b && (x =? y).
Proof.
  unfold placement_eqb.
  destruct (placement_eq_dec (a ++ [x]) (b ++ [y])) as [E|Hne].
  - apply app_inj_tail in E as [-> ->]. rewrite Nat.eqb_refl.
    destruct (placement_eq_dec b b); [reflexivity|congruence].
  - destruct (placement_eq_dec a b) as [->|]; [|reflexivity].
    destruct (x =? y) eqn:E; [|reflexivity]. apply Nat.eqb_eq in E. subst. congruence.
Qed.

Lemma placement_eqb_refl x : placement_eqb x x = true.
Proof. unfold placement_eqb. destruct (placement_eq_dec x x); [reflexivity|congruence]. Qed.

Lemma ext_count_cons p start index indices c rest i y :
  is_letter c = true ->
  list_sum (map (fun j => ext_count p start j (indices ++ [j]) rest i y)
                (rev (later_positions p index c))) =
  ext_count p start index indices (c :: rest) i y.
Proof.
  intros Hc.
  assert (Hk : forall j, length (indices ++ [j]) = S (length indices))
    by (intros; rewrite length_app; simpl; lia).
  destruct (skipn (length indices) y) as [|j0 z] eqn:Es.
  - rewrite list_sum_zero.
    + rewrite ext_count_eq, Es. cbn [spells]. rewrite andb_false_r. reflexivity.
    + intros j _. rewrite ext_count_eq, Hk.
      assert (Hy : length y <= length indices)
        by (pose proof (length_skipn (length indices) y) as L; rewrite Es in L; simpl in L; lia).
      unfold placement_eqb.
      destruct (placement_eq_dec (firstn (S (length indices)) y) (indices ++ [j])) as [E|];
        [|rewrite andb_false_r; reflexivity].
      exfalso. apply (f_equal (@length nat)) in E.
      rewrite length_firstn, Hk in E. lia.
  - destruct (firstn_skipn_S _ y j0 z Es) as [Hf Hs].
    rewrite (list_sum_single Nat.eq_dec _ _ j0).
    2: { intros j _ Hne. rewrite ext_count_eq, Hk, Hf, placement_eqb_app.
         replace (j0 =? j) with false by (symmetry; apply Nat.eqb_neq; congruence).
         rewrite !andb_false_r. reflexivity. }
    rewrite (count_occ_nodup _ _ (NoDup_rev (later_positions_NoDup p index c))).
    rewrite !ext_count_eq, Hk, Hf, Hs, Es, placement_eqb_app, Nat.eqb_refl, andb_true_r.
    change (increasing (index :: j0 :: z)) with ((index <? j0) && increasing (j0 :: z)).
    change (spells p (j0 :: z) (c :: rest)) with (has_letter p c j0 && spells p z rest).
    destruct (in_dec Nat.eq_dec j0 (rev (later_positions p index c))) as [Hin|Hnin].
    + apply in_rev, (later_positions_iff p index c j0 Hc) in Hin as [Hlt Hh].
      rewrite Hh. replace (index <? j0) with true by (symmetry; apply Nat.ltb_lt; lia).
      destruct (i =? start), (placement_eqb _ _), (increasing (j0 :: z)), (spells p z rest);
        reflexivity.
    + destruct (index <? j0) eqn:E1, (has_letter p c j0) eqn:E2;
        [exfalso; apply Hnin; rewrite <- in_rev; apply (later_positions_iff p index c j0 Hc);
         split; [apply Nat.ltb_lt; exact E1|exact E2]| | |];
        rewrite ?andb_false_r; cbn [andb]; rewrite ?andb_false_r; reflexivity.
Qed.

Lemma print_word_matches_rest_count W : forall rest start index indices mr mr',
  config_ok mr -> words_ok mr ->
  indices <> [] -> start_of indices = start -> end_of indices = index ->
  increasing indices = true ->
  (exists pre, W = pre ++ rest /\ map (nth_error (mr_phrase mr)) indices = map Some pre) ->
  (exists c, nth_error (mr_phrase mr) index = Some c /\ is_letter c = true) ->
  (exists c, nth_error (mr_phrase mr) start = Some c /\ is_letter c = true) ->
  Forall (fun c => is_letter c = true) rest ->
  print_word_matches_rest rest start index indices mr = Ok mr' ->
  forall i y,
    count_occ placement_eq_dec (bucket mr' i) y =
    count_occ placement_eq_dec (bucket mr i) y +
    ext_count (mr_phrase mr) start index indices rest i y.
Proof.
  induction rest as [|c rest IH];
    intros start index indices mr mr' Hcfg Hok Hne Hs He Hinc Hpre Hidx Hst Hlet Hrun i y.
  - simpl in Hrun. rewrite ext_count_nil. exact (add_match_count _ _ _ _ i y Hrun).
  - pose proof (Forall_inv Hlet) as Hc. pose proof (Forall_inv_tail Hlet) as Hlet'.
    pose proof Hcfg as [Hmaps Hinit]. destruct Hidx as [ci [Hci Hli]].
    destruct (make_letter_maps_spec (mr_phrase mr) index ci Hci) as [om [Hom [_ Hsome]]].
    destruct (Hsome Hli) as [m [-> Hm]].
    simpl in Hrun. rewrite Hmaps, Hom, Hm, nonempty_fold in Hrun.
    rewrite <- (ext_count_cons _ _ _ _ _ _ _ _ Hc).
    refine (proj2 (res_fold_left_count
                     (fun s => config_ok s /\ words_ok s /\ mr_phrase s = mr_phrase mr)
                     (fun s => count_occ placement_eq_dec (bucket s i) y) _
                     (fun j => ext_count (mr_phrase mr) start j (indices ++ [j]) rest i y)
                     _ mr mr' (conj Hcfg (conj Hok eq_refl)) _ Hrun)).
    intros s j s'' Hj [Hcs [Hoks Hps]] Hg.
    apply in_rev, in_later_positions in Hj as [Hlt [Hpj _]].
    destruct Hpre as [pre [HW Hpre]].
    assert (Hpre' : exists pre', W = pre' ++ rest /\
              map (nth_error (mr_phrase s)) (indices ++ [j]) = map Some pre').
    { exists (pre ++ [c]). split; [rewrite <- app_assoc; exact HW|].
      rewrite Hps, !map_app, Hpre. simpl. rewrite Hpj. reflexivity. }
    assert (Hne' : indices ++ [j] <> []) by (destruct indices; discriminate).
    assert (Hs' : start_of (indices ++ [j]) = start) by (rewrite start_of_app; assumption).
    assert (Hinc' : increasing (indices ++ [j]) = true) by (apply increasing_app; [exact Hinc|lia]).
    assert (Hj' : exists c0, nth_error (mr_phrase s) j = Some c0 /\ is_letter c0 = true)
      by (exists c; rewrite Hps; split; assumption).
    assert (Hst' : exists c0, nth_error (mr_phrase s) start = Some c0 /\ is_letter c0 = true)
      by (rewrite Hps; exact Hst).
    destruct (print_word_matches_rest_spec W rest start j (indices ++ [j]) s Hcs Hoks
                Hne' Hs' (end_of_app indices j) Hinc' Hpre' Hj' Hst')
      as [s1 [Hrun1 [[w ->] [Hok1 _]]]].
    rewrite Hg in Hrun1. injection Hrun1 as ->.
    split; [split; [exact Hcs|split; [exact Hok1|exact Hps]]|].
    rewrite <- Hps.
    exact (IH start j (indices ++ [j]) s _ Hcs Hoks Hne' Hs' (end_of_app indices j) Hinc'
              Hpre' Hj' Hst' Hlet' Hg i y).
Qed.

Lemma positions_sum p w0 W' i y :
  list_sum (map (fun j => ext_count p j j [j] W' i y) (positions p w0)) =
  if placement_ofb p (w0 :: W') y && (start_of y =? i) then 1 else 0.
Proof.
  destruct y as [|j0 z].
  - apply list_sum_zero. intros j _. rewrite ext_count_eq. simpl firstn.
    unfold placement_eqb. destruct (placement_eq_dec [] [j]); [discriminate|].
    rewrite andb_false_r. reflexivity.
  - rewrite (list_sum_single Nat.eq_dec _ _ j0).
    2: { intros j _ Hne. rewrite ext_count_eq. simpl firstn. unfold placement_eqb.
         destruct (placement_eq_dec [j0] [j]) as [E|]; [injection E; congruence|].
         rewrite andb_false_r. reflexivity. }
    rewrite (count_occ_nodup _ _ (positions_NoDup p w0)), ext_count_eq.
    simpl firstn. simpl skipn. rewrite placement_eqb_refl, andb_true_r.
    unfold placement_ofb.
    change (spells p (j0 :: z) (w0 :: W')) with (has_letter p w0 j0 && spells p z W').
    change (start_of (j0 :: z)) with j0. rewrite (Nat.eqb_sym j0 i).
    destruct (in_dec Nat.eq_dec j0 (positions p w0)) as [Hin|Hnin].
    + apply in_positions in Hin. rewrite Hin.
      destruct (i =? j0), (increasing (j0 :: z)), (spells p z W'); reflexivity.
    + destruct (has_letter p w0 j0) eqn:E; [apply in_positions in E; contradiction|].
      rewrite andb_false_r. simpl. destruct (increasing (j0 :: z)); reflexivity.
Qed.

(** One search step, from a table whose [initial_map] is the one
    [MatchResults.__init__] builds, stores each placement of a word made of
    letters exactly once, at its start index, and nothing else. *)
Lemma match_word_count mr W mr' :
  config_ok mr -> words_ok mr -> mr_initial_map mr = make_initial_map (mr_phrase mr) ->
  Forall (fun c => is_letter c = true) W ->
  match_word mr W = Ok mr' ->
  forall i y,
    count_occ placement_eq_dec (bucket mr' i) y =
    count_occ placement_eq_dec (bucket mr i) y +
    (if placement_ofb (mr_phrase mr) W y && (start_of y =? i) then 1 else 0).
Proof.
  intros Hcfg Hok Hinit Hlet Hrun i y.
  destruct W as [|w0 W']; [discriminate|].
  pose proof (Forall_inv Hlet) as Hw0. pose proof (Forall_inv_tail Hlet) as Hlet'.
  unfold match_word in Hrun. rewrite Hinit, make_initial_map_spec, Hw0, nonempty_fold in Hrun.
  rewrite <- positions_sum.
  refine (proj2 (res_fold_left_count
                   (fun s => config_ok s /\ words_ok s /\ mr_phrase s = mr_phrase mr)
                   (fun s => count_occ placement_eq_dec (bucket s i) y) _
                   (fun j => ext_count (mr_phrase mr) j j [j] W' i y)
                   _ mr mr' (conj Hcfg (conj Hok eq_refl)) _ Hrun)).
  intros s j s'' Hj [Hcs [Hoks Hps]] Hg.
  apply in_positions in Hj. unfold has_letter in Hj.
  destruct (nth_error (mr_phrase mr) j) as [d|] eqn:Hpj; [|discriminate].
  apply Ascii.eqb_eq in Hj. subst d.
  unfold print_word_matches in Hg. simpl skipn in Hg.
  assert (Hpre : exists pre, w0 :: W' = pre ++ W' /\
            map (nth_error (mr_phrase s)) [j] = map Some pre).
  { exists [w0]. split; [reflexivity|]. simpl. rewrite Hps, Hpj. reflexivity. }
  assert (Hj' : exists c0, nth_error (mr_phrase s) j = Some c0 /\ is_letter c0 = true)
    by (exists w0; rewrite Hps; split; assumption).
  destruct (print_word_matches_rest_spec (w0 :: W') W' j j [j] s Hcs Hoks
              ltac:(discriminate) eq_refl eq_refl eq_refl Hpre Hj' Hj')
    as [s1 [Hrun1 [[w ->] [Hok1 _]]]].
  rewrite Hg in Hrun1. injection Hrun1 as ->.
  split; [split; [exact Hcs|split; [exact Hok1|exact Hps]]|].
  rewrite <- Hps.
  exact (print_word_matches_rest_count (w0 :: W') W' j j [j] s _ Hcs Hoks
           ltac:(discriminate) eq_refl eq_refl eq_refl Hpre Hj' Hj' Hlet' Hg i y).
Qed.

Lemma spells_iff p y W : spells p y W = true <-> map (nth_error p) y = map Some W.
Proof.
  revert W. induction y as [|j y IH]; intros [|c W]; simpl; split; intros H;
    try reflexivity; try discriminate.
  - apply andb_prop in H as [Hh Hs]. unfold has_letter in Hh.
    destruct (nth_error p j) as [d|]; [|discriminate]. apply Ascii.eqb_eq in Hh. subst d.
    apply IH in Hs. rewrite Hs. reflexivity.
  - injection H as Hj Hm. unfold has_letter. rewrite Hj, Ascii.eqb_refl. simpl.
    apply IH. exact Hm.
Qed.

Lemma placement_ofb_iff p W y : placement_ofb p W y = true <-> placement_of p W y.
Proof.
  unfold placement_ofb, placement_of. rewrite andb_true_iff, spells_iff. reflexivity.
Qed.

Lemma res_fold_left_id {A B} (g : A -> B -> res A) l a :
  (forall x, In x l -> g a x = Ok a) -> res_fold_left g l a = Ok a.
Proof.
  induction l as [|x l IH]; intros H; simpl; [reflexivity|].
  rewrite (H x (or_introl eq_refl)). simpl. apply IH. intros y Hy. apply H. now right.
Qed.

Lemma print_word_matches_rest_nonletter : forall rest start index indices s,
  config_ok s ->
  (exists c, nth_error (mr_phrase s) index = Some c /\ is_letter c = true) ->
  Exists (fun c => is_letter c = false) rest ->
  print_word_matches_rest rest start index indices s = Ok s.
Proof.
  induction rest as [|c rest IH]; intros start index indices s Hcfg [ci [Hci Hli]] Hex;
    [inversion Hex|].
  pose proof Hcfg as [Hmaps _].
  destruct (make_letter_maps_spec (mr_phrase s) index ci Hci) as [om [Hom [_ Hsome]]].
  destruct (Hsome Hli) as [m [-> Hm]].
  simpl. rewrite Hmaps, Hom, Hm, nonempty_fold.
  apply res_fold_left_id. intros j Hj.
  apply in_rev, in_later_positions in Hj as [_ [Hpj Hlc]].
  apply IH; [exact Hcfg|exists c; split; assumption|].
  inversion Hex as [? ? Hc|? ? Hr]; subst; [congruence|exact Hr].
Qed.

(** A word with a character that is not a lowercase letter leaves the table
    unchanged. *)
Lemma match_word_nonletter s W :
  config_ok s -> mr_initial_map s = make_initial_map (mr_phrase s) ->
  W <> [] -> Exists (fun c => is_letter c = false) W ->
  match_word s W = Ok s.
Proof.
  intros Hcfg Hinit HW Hex. destruct W as [|w0 W']; [congruence|].
  unfold match_word. rewrite Hinit, make_initial_map_spec.
  destruct (is_letter w0) eqn:Hw0; [|reflexivity].
  rewrite nonempty_fold. apply res_fold_left_id. intros j Hj.
  apply in_positions in Hj. unfold has_letter in Hj.
  destruct (nth_error (mr_phrase s) j) as [d|] eqn:Hpj; [|discriminate].
  apply Ascii.eqb_eq in Hj. subst d.
  unfold print_word_matches. simpl skipn.
  apply print_word_matches_rest_nonletter; [exact Hcfg|exists w0; split; assumption|].
  inversion Hex as [? ? Hc|? ? Hr]; subst; [congruence|exact Hr].
Qed.

Lemma forallb_letters W :
  (forallb is_letter W = true -> Forall (fun c => is_letter c = true) W) /\
  (forallb is_letter W = false -> Exists (fun c => is_letter c = false) W).
Proof.
  split; intros H.
  - apply Forall_forall. intros c Hc. rewrite forallb_forall in H. apply H, Hc.
  - apply Exists_exists. destruct (existsb (fun c => negb (is_letter c)) W) eqn:E.
    + apply existsb_exists in E as [c [Hc Hn]]. exists c. split; [exact Hc|].
      destruct (is_letter c); [discriminate|reflexivity].
    + exfalso. assert (Hall : forallb is_letter W = true); [|congruence].
      apply forallb_forall. intros c Hc.
      destruct (is_letter c) eqn:Ec; [reflexivity|].
      assert (existsb (fun c => negb (is_letter c)) W = true)
        by (apply existsb_exists; exists c; rewrite Ec; auto). congruence.
Qed.

Lemma new_MatchResults_bucket phrase count allow_less i :
  bucket (new_MatchResults phrase count allow_less) i = [].
Proof.
  unfold bucket. simpl. rewrite nth_error_map.
  destruct (nth_error (lower phrase) i) as [c|]; simpl; [|reflexivity].
  destruct (is_letter c); reflexivity.
Qed.

(** Searching a list of non-empty words from a table built by
    [MatchResults.__init__] (possibly after earlier searches). *)
Lemma match_words_count p : forall d s,
  config_ok s -> words_ok s -> mr_phrase s = p ->
  mr_initial_map s = make_initial_map p ->
  Forall (fun w => w <> []) d ->
  exists s', res_fold_left match_word d s = Ok s' /\
    forall i y,
      count_occ placement_eq_dec (bucket s' i) y =
      count_occ placement_eq_dec (bucket s i) y +
      length (filter (fun W => forallb is_letter W && placement_ofb p W y
                               && (start_of y =? i)) d).
Proof.
  induction d as [|W d IH]; intros s Hcfg Hok Hp Hinit Hd.
  - exists s. split; [reflexivity|]. intros. simpl. lia.
  - pose proof (Forall_inv Hd) as HW. pose proof (Forall_inv_tail Hd) as Hd'.
    destruct (match_word_spec s W Hcfg Hok HW) as [s1 [Hm [[w ->] [Hok1 _]]]].
    destruct (IH (set_words s w) Hcfg Hok1 Hp Hinit Hd') as [s' [Hrun Hcnt]].
    exists s'. split; [simpl; rewrite Hm; exact Hrun|].
    intros i y. rewrite Hcnt. simpl filter.
    destruct (forallb is_letter W) eqn:Hl.
    + rewrite (match_word_count s W _ Hcfg Hok ltac:(rewrite Hp; exact Hinit)
                 (proj1 (forallb_letters W) Hl) Hm i y), Hp.
      cbn [andb]. destruct (placement_ofb p W y && (start_of y =? i)); simpl; lia.
    + rewrite (match_word_nonletter s W Hcfg ltac:(rewrite Hp; exact Hinit) HW
                 (proj2 (forallb_letters W) Hl)) in Hm.
      injection Hm as Hm. rewrite <- Hm. cbn [andb]. reflexivity.
Qed.

(** A table reached by [MatchResults.__init__] and searches of words. *)
Lemma reached_table phrase count allow_less ws mr :
  res_fold_left match_word ws (new_MatchResults phrase count allow_less) = Ok mr ->
  config_ok mr /\ words_ok mr /\ mr_phrase mr = lower phrase /\
  mr_initial_map mr = make_initial_map (mr_phrase mr).
Proof.
  intros H. destruct (new_MatchResults_ok phrase count allow_less) as [Hc Hw].
  destruct (match_words_ok _ _ _ Hc Hw H) as (Hc' & Hw' & w & ->).
  exact (conj Hc' (conj Hw' (conj eq_refl eq_refl))).
Qed.

(** ** Extra properties: the placement search *)

(** [MatchResults.__init__]: [initial_map] maps each lowercase letter
    occurring in the lower-cased phrase to all its positions, in increasing
    order, and has no other keys. *)
Theorem initial_map_positions phrase count allow_less L :
  mr_initial_map (new_MatchResults phrase count allow_less) L =
  if is_letter L then nonempty (positions (lower phrase) L) else None.
Proof. apply make_initial_map_spec. Qed.

(** Searching a word of lowercase letters ([print_matches]'s loop body, with
    [_print_word_matches]) stores each placement of the word exactly once, at
    its start index, and nothing else. *)
Theorem match_word_stores_each_placement phrase count allow_less ws mr W mr' :
  res_fold_left match_word ws (new_MatchResults phrase count allow_less) = Ok mr ->
  Forall (fun c => is_letter c = true) W ->
  match_word mr W = Ok mr' ->
  forall i y,
    count_occ placement_eq_dec (bucket mr' i) y =
    count_occ placement_eq_dec (bucket mr i) y +
    (if placement_ofb (lower phrase) W y && (start_of y =? i) then 1 else 0).
Proof.
  intros Hr Hlet Hm i y.
  destruct (reached_table _ _ _ _ _ Hr) as (Hc & Hw & Hp & Hi).
  rewrite <- Hp. exact (match_word_count mr W mr' Hc Hw Hi Hlet Hm i y).
Qed.

(** Searching a non-empty word that has a character other than a lowercase
    ASCII letter leaves the table unchanged, even when the phrase spells it. *)
Theorem match_word_skips_nonletter_word phrase count allow_less ws mr W :
  res_fold_left match_word ws (new_MatchResults phrase count allow_less) = Ok mr ->
  W <> [] -> Exists (fun c => is_letter c = false) W ->
  match_word mr W = Ok mr.
Proof.
  intros Hr HW Hex. destruct (reached_table _ _ _ _ _ Hr) as (Hc & _ & _ & Hi).
  exact (match_word_nonletter mr W Hc Hi HW Hex).
Qed.

Lemma build_matches_table dictionary phrase count allow_less :
  Forall (fun w => w <> ""%string) dictionary ->
  exists mr, build_matches (set_dict dictionary) phrase count allow_less = Ok mr /\
    forall i y,
      count_occ placement_eq_dec (bucket mr i) y =
      length (filter (fun W => forallb is_letter W && placement_ofb (lower phrase) W y
                               && (start_of y =? i)) (map lower dictionary)).
Proof.
  intros Hd. pose proof (lower_nonempty_all dictionary Hd) as Hd'.
  unfold build_matches, trim_dictionary, set_dict. cbn [wm_dictionary wm_inventories].
  rewrite trim_loop_ok by exact Hd'. cbn [bind].
  destruct (new_MatchResults_ok phrase count allow_less) as [Hc Hw].
  rewrite fold_trim_equiv by (exact Hc || exact Hw || reflexivity || exact Hd').
  destruct (match_words_count (lower phrase) (map lower dictionary)
              (new_MatchResults phrase count allow_less) Hc Hw eq_refl eq_refl Hd')
    as [s' [Hrun Hcnt]].
  exists s'. split; [exact Hrun|]. intros i y. rewrite Hcnt, new_MatchResults_bucket. reflexivity.
Qed.

(** For a dictionary of non-empty words, the table built by [print_matches]
    holds each placement [y] at index [i] once for every (lower-cased)
    dictionary word made of lowercase letters that [y] spells and that starts
    at [i]. *)
Theorem build_matches_counts dictionary phrase count allow_less :
  Forall (fun w => w <> ""%string) dictionary ->
  exists mr, build_matches (set_dict dictionary) phrase count allow_less = Ok mr /\
    forall i y,
      count_occ placement_eq_dec (bucket mr i) y =
      length (filter (fun W => forallb is_letter W && placement_ofb (lower phrase) W y
                               && (start_of y =? i)) (map lower dictionary)).
Proof. apply build_matches_table. Qed.

Lemma match_word_stores_each_placement_witness :
  exists mr',
    match_word (new_MatchResults "cat" 0 true) ["a"; "t"]%char = Ok mr' /\
    count_occ placement_eq_dec (bucket mr' 1) [1; 2] =
    count_occ placement_eq_dec (bucket (new_MatchResults "cat" 0 true) 1) [1; 2] + 1.
Proof.
  destruct (match_word (new_MatchResults "cat" 0 true) ["a"; "t"]%char) as [m|e] eqn:E;
    [|vm_compute in E; discriminate].
  exists m. split; [reflexivity|].
  rewrite (match_word_stores_each_placement "cat" 0 true [] _ ["a"; "t"]%char m eq_refl
             ltac:(repeat constructor) E 1 [1; 2]).
  reflexivity.
Defined.

Lemma match_word_skips_nonletter_word_witness :
  match_word (new_MatchResults "a b" 0 true) ["a"; " "; "b"]%char =
  Ok (new_MatchResults "a b" 0 true).
Proof.
  apply (match_word_skips_nonletter_word "a b" 0 true [] _ _ eq_refl);
    [discriminate|right; left; reflexivity].
Defined.

Lemma build_matches_counts_witness :
  exists mr, build_matches (set_dict ["At"; "cat"]%string) "Cat" 0 true = Ok mr /\
    count_occ placement_eq_dec (bucket mr 1) [1; 2] = 1.
Proof.
  destruct (build_matches_counts ["At"; "cat"]%string "Cat" 0 true
              ltac:(repeat constructor; discriminate)) as [mr [H Hc]].
  exists mr. split; [exact H|]. rewrite Hc. reflexivity.
Defined.

(** ** Extra properties: letter inventories *)

Lemma inv_sub_loop_eq p w : p <> [] -> w <> [] -> forall ls diff,
  incl ls ascii_lowercase ->
  inv_sub_loop (LetterInventory_init p) (LetterInventory_init w) ls diff =
  if forallb (fun L => count_occ ascii_dec w L <=? count_occ ascii_dec p L) ls
  then Ok (Some {| letters := diff ++ map (fun L => (L, (Z.of_nat (count_occ ascii_dec p L)
                                             - Z.of_nat (count_occ ascii_dec w L))%Z)) ls |})
  else Ok None.
Proof.
  intros Hp Hw. induction ls as [|L ls IH]; intros diff Hincl.
  - simpl. rewrite app_nil_r. reflexivity.
  - cbn [inv_sub_loop forallb map].
    rewrite (inv_get_init p L Hp), (inv_get_init w L Hw) by (apply Hincl; left; reflexivity).
    cbn [bind].
    destruct (Z.of_nat _ - Z.of_nat _ <? 0)%Z eqn:E.
    + apply Z.ltb_lt in E.
      replace (count_occ ascii_dec w L <=? count_occ ascii_dec p L) with false
        by (symmetry; apply Nat.leb_gt; lia).
      reflexivity.
    + apply Z.ltb_ge in E.
      replace (count_occ ascii_dec w L <=? count_occ ascii_dec p L) with true
        by (symmetry; apply Nat.leb_le; lia).
      cbn [andb]. rewrite IH by (intros x Hx; apply Hincl; right; exact Hx).
      rewrite <- app_assoc. reflexivity.
Qed.

Lemma inv_sub_init_eq p w : w <> [] ->
  inv_sub (LetterInventory_init p) (LetterInventory_init w) =
  match p with
  | [] => Ok None
  | _ => if forallb (fun L => count_occ ascii_dec w L <=? count_occ ascii_dec p L)
                    ascii_lowercase
         then Ok (Some {| letters := map (fun L => (L, (Z.of_nat (count_occ ascii_dec p L)
                                             - Z.of_nat (count_occ ascii_dec w L))%Z))
                                         ascii_lowercase |})
         else Ok None
  end.
Proof.
  intros Hw. destruct w as [|b w']; [congruence|].
  destruct p as [|a p']; [reflexivity|].
  change (inv_sub (LetterInventory_init (a :: p')) (LetterInventory_init (b :: w')))
    with (inv_sub_loop (LetterInventory_init (a :: p')) (LetterInventory_init (b :: w'))
                       ascii_lowercase []).
  rewrite inv_sub_loop_eq by (discriminate || apply incl_refl). reflexivity.
Qed.

Lemma inv_add_loop_eq x y (f g : ascii -> Z) : forall ls result,
  (forall L, In L ls -> inv_get x L = Ok (f L)) ->
  (forall L, In L ls -> inv_get y L = Ok (g L)) ->
  inv_add_loop x y ls result =
  Ok {| letters := result ++ map (fun L => (L, (f L + g L)%Z)) ls |}.
Proof.
  induction ls as [|L ls IH]; intros result Hx Hy.
  - simpl. rewrite app_nil_r. reflexivity.
  - cbn [inv_add_loop]. rewrite (Hx L (or_introl eq_refl)), (Hy L (or_introl eq_refl)).
    cbn [bind]. rewrite IH by (intros; (apply Hx || apply Hy); right; assumption).
    rewrite <- app_assoc. reflexivity.
Qed.

Lemma inv_get_map (h : ascii -> Z) L : In L ascii_lowercase ->
  inv_get {| letters := map (fun L => (L, h L)) ascii_lowercase |} L = Ok (h L).
Proof.
  intros HL. unfold inv_get. cbn [letters].
  rewrite (find_letter (fun L => (L, h L))); [reflexivity|reflexivity|exact HL].
Qed.

(** [sub] on the inventories of a phrase and of a non-empty word: [None]
    when the phrase is empty or has fewer of some letter than the word,
    otherwise the letter-by-letter difference of the counts. *)
Theorem inv_sub_counts p w : w <> [] ->
  inv_sub (LetterInventory_init p) (LetterInventory_init w) =
  match p with
  | [] => Ok None
  | _ => if forallb (fun L => count_occ ascii_dec w L <=? count_occ ascii_dec p L)
                    ascii_lowercase
         then Ok (Some {| letters := map (fun L => (L, (Z.of_nat (count_occ ascii_dec p L)
                                             - Z.of_nat (count_occ ascii_dec w L))%Z))
                                         ascii_lowercase |})
         else Ok None
  end.
Proof. intros Hw. exact (inv_sub_init_eq p w Hw). Qed.

(** [add] of the inventories of two words is the inventory of their
    concatenation; when either word is empty its inventory has no keys and
    [add] raises [KeyError]. *)
Theorem inv_add_init a b :
  inv_add (LetterInventory_init a) (LetterInventory_init b) =
  match a, b with
  | [], _ | _, [] => Raise KeyError
  | _, _ => Ok (LetterInventory_init (a ++ b))
  end.
Proof.
  destruct a as [|x a']; [reflexivity|].
  destruct b as [|y b'].
  - reflexivity.
  - unfold inv_add.
    rewrite (inv_add_loop_eq _ _ (fun L => Z.of_nat (count_occ ascii_dec (x :: a') L))
                                 (fun L => Z.of_nat (count_occ ascii_dec (y :: b') L)))
      by (intros L HL; apply inv_get_init; (discriminate || exact HL)).
    cbn [app LetterInventory_init]. do 2 f_equal. apply map_ext. intros L.
    f_equal. change (x :: a' ++ y :: b') with ((x :: a') ++ (y :: b')).
    rewrite count_occ_app. lia.
Qed.

(** Adding back the subtracted word restores the phrase's inventory. *)
Theorem inv_sub_add_roundtrip p w d :
  inv_sub (LetterInventory_init p) (LetterInventory_init w) = Ok (Some d) ->
  inv_add d (LetterInventory_init w) = Ok (LetterInventory_init p).
Proof.
  intros H. destruct w as [|b w']; [rewrite inv_sub_empty in H; discriminate|].
  rewrite inv_sub_init_eq in H by discriminate.
  destruct p as [|a p']; [discriminate|].
  destruct (forallb _ _); [|discriminate]. injection H as <-.
  unfold inv_add.
  rewrite (inv_add_loop_eq _ _
             (fun L => (Z.of_nat (count_occ ascii_dec (a :: p') L)
                        - Z.of_nat (count_occ ascii_dec (b :: w') L))%Z)
             (fun L => Z.of_nat (count_occ ascii_dec (b :: w') L))).
  - cbn [app LetterInventory_init]. do 2 f_equal. apply map_ext. intros L. f_equal. lia.
  - intros L HL. apply (inv_get_map (fun L => (Z.of_nat (count_occ ascii_dec (a :: p') L)
                        - Z.of_nat (count_occ ascii_dec (b :: w') L))%Z)), HL.
  - intros L HL. apply inv_get_init; [discriminate|exact HL].
Qed.

(** After [set(L, n)], [get(L)] returns [n] and every other letter keeps its
    count (or its [KeyError]). *)
Theorem inv_set_get inv L n L' :
  inv_get (inv_set inv L n) L' = if Ascii.eqb L' L then Ok n else inv_get inv L'.
Proof.
  unfold inv_get, inv_set. cbn [letters]. induction (letters inv) as [|[k v] l IH].
  - simpl. destruct (Ascii.eqb_spec L L'), (Ascii.eqb_spec L' L); congruence.
  - cbn [assoc_set]. destruct (Ascii.eqb_spec k L) as [->|Hk].
    + cbn [find fst]. destruct (Ascii.eqb_spec L L'), (Ascii.eqb_spec L' L); congruence.
    + cbn [find fst]. destruct (Ascii.eqb_spec k L'); [|exact IH].
      subst k. destruct (Ascii.eqb_spec L' L); congruence.
Qed.

(** [trim_dictionary] on a dictionary of non-empty words and their
    inventories keeps, in order, the words whose every letter occurs in the
    phrase at least as often as in the word; it keeps nothing for an empty
    phrase. *)
Theorem trim_dictionary_filter p d :
  Forall (fun w => w <> []) d ->
  trim_dictionary p d (map LetterInventory_init d) =
  Ok (filter (fun w => match p with
                       | [] => false
                       | _ => forallb (fun L => count_occ ascii_dec w L
                                                <=? count_occ ascii_dec p L) ascii_lowercase
                       end) d).
Proof.
  intros Hd. unfold trim_dictionary. rewrite trim_loop_ok by exact Hd. f_equal.
  apply filter_ext_in. intros w Hw. unfold keep.
  rewrite inv_sub_init_eq by (rewrite Forall_forall in Hd; apply Hd, Hw).
  destruct p; [reflexivity|]. destruct (forallb _ _); reflexivity.
Qed.

Lemma inv_sub_counts_witness :
  ["a"; "t"]%char <> [] /\
  inv_sub (LetterInventory_init ["c"; "a"; "t"]%char) (LetterInventory_init ["a"; "t"]%char) =
  Ok (Some {| letters := map (fun L => (L, (Z.of_nat (count_occ ascii_dec ["c"; "a"; "t"]%char L)
                                   - Z.of_nat (count_occ ascii_dec ["a"; "t"]%char L))%Z))
                             ascii_lowercase |}).
Proof.
  split; [discriminate|]. rewrite (inv_sub_counts ["c"; "a"; "t"]%char ["a"; "t"]%char ltac:(discriminate)).
  reflexivity.
Defined.

Lemma inv_sub_add_roundtrip_witness :
  exists d,
    inv_sub (LetterInventory_init ["c"; "a"; "t"]%char)
            (LetterInventory_init ["a"; "t"]%char) = Ok (Some d) /\
    inv_add d (LetterInventory_init ["a"; "t"]%char) =
    Ok (LetterInventory_init ["c"; "a"; "t"]%char).
Proof.
  destruct (inv_sub (LetterInventory_init ["c"; "a"; "t"]%char)
                    (LetterInventory_init ["a"; "t"]%char)) as [[d|]|e] eqn:E;
    [|vm_compute in E; discriminate|vm_compute in E; discriminate].
  exists d. split; [reflexivity|]. exact (inv_sub_add_roundtrip _ _ d E).
Defined.

Lemma trim_dictionary_filter_witness :
  Forall (fun w => w <> []) [["a"; "t"]; ["d"; "o"; "g"]]%char /\
  trim_dictionary ["c"; "a"; "t"]%char [["a"; "t"]; ["d"; "o"; "g"]]%char
                  (map LetterInventory_init [["a"; "t"]; ["d"; "o"; "g"]]%char) =
  Ok [["a"; "t"]%char].
Proof.
  assert (H : Forall (fun w => w <> []) [["a"; "t"]; ["d"; "o"; "g"]]%char)
    by (repeat constructor; discriminate).
  split; [exact H|]. rewrite (trim_dictionary_filter _ _ H). reflexivity.
Defined.

(** ** Extra properties: reading the dictionary *)

Lemma str_ltb_irrefl s : str_ltb s s = false.
Proof. induction s as [|a s IH]; [reflexivity|]. simpl. rewrite Nat.ltb_irrefl. exact IH. Qed.

Lemma str_ltb_trans : forall s t u,
  str_ltb s t = true -> str_ltb t u = true -> str_ltb s u = true.
Proof.
  induction s as [|a s IH]; intros [|b t] [|c u] H1 H2; simpl in *; try discriminate;
    try reflexivity.
  destruct (Nat.ltb_spec (nat_of_ascii a) (nat_of_ascii b));
  destruct (Nat.ltb_spec (nat_of_ascii b) (nat_of_ascii a)); try discriminate; try lia;
  destruct (Nat.ltb_spec (nat_of_ascii b) (nat_of_ascii c));
  destruct (Nat.ltb_spec (nat_of_ascii c) (nat_of_ascii b)); try discriminate; try lia;
  destruct (Nat.ltb_spec (nat_of_ascii a) (nat_of_ascii c)); try reflexivity; try lia;
  destruct (Nat.ltb_spec (nat_of_ascii c) (nat_of_ascii a)); try lia;
  apply (IH t u); assumption.
Qed.

Lemma str_ltb_total : forall s t, s <> t -> str_ltb s t = true \/ str_ltb t s = true.
Proof.
  induction s as [|a s IH]; intros [|b t] Hne; simpl; auto; try congruence.
  destruct (Nat.ltb_spec (nat_of_ascii a) (nat_of_ascii b)); [auto|].
  destruct (Nat.ltb_spec (nat_of_ascii b) (nat_of_ascii a)); [auto|].
  assert (a = b).
  { rewrite <- (ascii_nat_embedding a), <- (ascii_nat_embedding b). f_equal. lia. }
  subst b. apply IH. congruence.
Qed.

Lemma in_insert_sorted x l y : In y (insert_sorted x l) <-> y = x \/ In y l.
Proof.
  induction l as [|z l IH]; simpl; [intuition congruence|].
  destruct (str_ltb z x); simpl; [rewrite IH|]; intuition congruence.
Qed.

Lemma insert_sorted_sorted x : forall l,
  StronglySorted (fun s t => str_ltb s t = true) l -> ~ In x l ->
  StronglySorted (fun s t => str_ltb s t = true) (insert_sorted x l).
Proof.
  induction l as [|y l IH]; intros Hs Hx; simpl.
  - repeat constructor.
  - apply StronglySorted_inv in Hs as [Hs Hy].
    destruct (str_ltb y x) eqn:E.
    + constructor; [apply IH; [exact Hs|intros H; apply Hx; right; exact H]|].
      apply Forall_forall. intros z Hz. apply in_insert_sorted in Hz as [->|Hz]; [exact E|].
      rewrite Forall_forall in Hy. apply Hy, Hz.
    + assert (Hxy : str_ltb x y = true).
      { destruct (str_ltb_total x y) as [H|H]; [intros ->; apply Hx; left; reflexivity|exact H|].
        congruence. }
      constructor; [constructor; assumption|]. constructor; [exact Hxy|].
      eapply Forall_impl; [|exact Hy]. intros z Hz. exact (str_ltb_trans _ _ _ Hxy Hz).
Qed.

Lemma in_sort_strings l y : In y (sort_strings l) <-> In y l.
Proof.
  induction l as [|x l IH]; simpl; [tauto|]. rewrite in_insert_sorted, IH. intuition congruence.
Qed.

Lemma sort_strings_sorted l : NoDup l ->
  StronglySorted (fun s t => str_ltb s t = true) (sort_strings l).
Proof.
  induction l as [|x l IH]; intros Hnd; simpl; [constructor|].
  inversion Hnd as [|? ? Hx Hnd']; subst.
  apply insert_sorted_sorted; [apply IH, Hnd'|]. rewrite in_sort_strings. exact Hx.
Qed.

Lemma sorted_map_string l :
  StronglySorted (fun s t => str_ltb s t = true) l ->
  StronglySorted (fun s t => str_ltb (list_ascii_of_string s) (list_ascii_of_string t) = true)
                 (map string_of_chars l).
Proof.
  induction l as [|x l IH]; intros Hs; simpl; [constructor|].
  apply StronglySorted_inv in Hs as [Hs Hx]. constructor; [apply IH, Hs|].
  apply Forall_map. eapply Forall_impl; [|exact Hx]. intros y Hy.
  unfold string_of_chars. rewrite !list_ascii_of_string_of_list_ascii. exact Hy.
Qed.

Lemma sorted_NoDup {A} (R : A -> A -> Prop) (Hirr : forall x, ~ R x x) l :
  StronglySorted R l -> NoDup l.
Proof.
  induction l as [|x l IH]; intros Hs; constructor.
  - apply StronglySorted_inv in Hs as [_ Hx]. rewrite Forall_forall in Hx.
    intros Hin. exact (Hirr x (Hx x Hin)).
  - apply IH. apply StronglySorted_inv in Hs. tauto.
Qed.

(** [read_dict] returns its words sorted in strictly increasing order (by
    character codes, a proper prefix first), hence without duplicates. *)
Theorem read_dict_sorted fs path ws :
  read_dict fs path = Ok ws ->
  StronglySorted (fun s t => str_ltb (list_ascii_of_string s) (list_ascii_of_string t) = true) ws
  /\ NoDup ws.
Proof.
  unfold read_dict. destruct (fs path) as [lines|e]; [|discriminate]. cbn [bind].
  intros H. injection H as <-.
  assert (Hs := sorted_map_string _ (sort_strings_sorted _
                 (NoDup_nodup (list_eq_dec ascii_dec)
                    (map (fun line => rstrip (map ascii_lower line)) lines)))).
  split; [exact Hs|].
  refine (sorted_NoDup _ _ _ Hs). intros s Hss. rewrite str_ltb_irrefl in Hss. discriminate.
Qed.

(** When the file can be read, [read_dict] succeeds, and its words are
    exactly the lines of the file lower-cased and right-stripped. *)
Theorem read_dict_words fs path lines :
  fs path = Ok lines ->
  exists ws, read_dict fs path = Ok ws /\
    forall w, In w ws <->
      exists line, In line lines /\ w = string_of_list_ascii (rstrip (map ascii_lower line)).
Proof.
  intros H. unfold read_dict. rewrite H. cbn [bind]. eexists. split; [reflexivity|].
  intros w. rewrite in_map_iff. split.
  - intros [x [<- Hx]]. rewrite in_sort_strings, nodup_In, in_map_iff in Hx.
    destruct Hx as [line [<- Hl]]. exists line. split; [exact Hl|reflexivity].
  - intros [line [Hl ->]]. exists (rstrip (map ascii_lower line)). split; [reflexivity|].
    rewrite in_sort_strings, nodup_In, in_map_iff. exists line. split; [reflexivity|exact Hl].
Qed.

Lemma read_dict_sorted_witness :
  exists ws, read_dict (fun _ => Ok [["B"; "o"; "b"; "010"]; ["a"]; ["b"; "o"; "b"]]%char)
                       DICT_PATH = Ok ws /\
  StronglySorted (fun s t => str_ltb (list_ascii_of_string s) (list_ascii_of_string t) = true) ws
  /\ NoDup ws.
Proof.
  eexists. split; [reflexivity|].
  apply (read_dict_sorted (fun _ => Ok [["B"; "o"; "b"; "010"]; ["a"]; ["b"; "o"; "b"]]%char)
                          DICT_PATH).
  reflexivity.
Defined.

Lemma read_dict_words_witness :
  exists ws, read_dict (fun _ => Ok [["C"; "a"; "t"; " "]; ["c"; "a"; "t"]]%char) DICT_PATH = Ok ws /\
    forall w, In w ws <->
      exists line, In line [["C"; "a"; "t"; " "]; ["c"; "a"; "t"]]%char /\
                   w = string_of_list_ascii (rstrip (map ascii_lower line)).
Proof. apply (read_dict_words _ DICT_PATH). reflexivity. Defined.

(** ** Extra properties: printing combinations *)

Lemma char_at_eq p i :
  char_at p i = if i <? length p then Ok (nth i p " "%char) else Raise IndexError.
Proof.
  unfold char_at. destruct (Nat.ltb_spec i (length p)).
  - rewrite (nth_error_nth' p " "%char H). reflexivity.
  - rewrite (proj2 (nth_error_None p i) H). reflexivity.
Qed.

Lemma word_text_fold p : forall w acc,
  res_fold_left (fun current index => c <- char_at p index ;; Ok (current ++ [c])) w acc =
  if forallb (fun i => i <? length p) w
  then Ok (acc ++ map (fun i => nth i p " "%char) w) else Raise IndexError.
Proof.
  induction w as [|i w IH]; intros acc; simpl; [rewrite app_nil_r; reflexivity|].
  rewrite char_at_eq. destruct (i <? length p); simpl; [|reflexivity].
  rewrite IH, <- app_assoc. reflexivity.
Qed.

Lemma make_word_line_fold p : forall wl acc,
  res_fold_left (fun words word => current <- word_text p word ;; Ok (words ++ [current]))
                wl acc =
  if forallb (forallb (fun i => i <? length p)) wl
  then Ok (acc ++ map (map (fun i => nth i p " "%char)) wl) else Raise IndexError.
Proof.
  induction wl as [|w wl IH]; intros acc; simpl; [rewrite app_nil_r; reflexivity|].
  unfold word_text. rewrite word_text_fold.
  destruct (forallb (fun i => i <? length p) w); simpl; [|reflexivity].
  rewrite IH, <- app_assoc. reflexivity.
Qed.

Lemma list_set_eq {A} (l : list A) i x :
  list_set l i x = if i <? length l then Ok (update_nth i x l) else Raise IndexError.
Proof. reflexivity. Qed.

(** The letters uncovered by the words of a combination. *)
Lemma uncover_fold p : forall w result cur, length result = length p ->
  res_fold_left (fun (st : list ascii * list ascii) index =>
                   let '(result, current) := st in
                   c <- char_at p index ;;
                   result' <- list_set result index c ;;
                   Ok (result', current ++ [c])) w (result, cur) =
  if forallb (fun i => i <? length p) w
  then Ok (fold_left (fun r i => update_nth i (nth i p " "%char) r) w result,
           cur ++ map (fun i => nth i p " "%char) w)
  else Raise IndexError.
Proof.
  induction w as [|i w IH]; intros result cur Hlen; simpl; [rewrite app_nil_r; reflexivity|].
  rewrite char_at_eq. destruct (Nat.ltb_spec i (length p)); simpl; [|reflexivity].
  rewrite list_set_eq, Hlen. replace (i <? length p) with true by (symmetry; apply Nat.ltb_lt; lia).
  simpl. rewrite IH by (rewrite update_nth_length; exact Hlen). rewrite <- app_assoc. reflexivity.
Qed.

Lemma print_words_fold p : forall wl result words, length result = length p ->
  res_fold_left (fun (st : list ascii * list (list ascii)) word =>
                   let '(result, words) := st in
                   st' <- uncover_word p result word ;;
                   let '(result', current) := st' in
                   Ok (result', words ++ [current])) wl (result, words) =
  if forallb (forallb (fun i => i <? length p)) wl
  then Ok (fold_left (fun r w => fold_left (fun r i => update_nth i (nth i p " "%char) r) w r)
                     wl result,
           words ++ map (map (fun i => nth i p " "%char)) wl)
  else Raise IndexError.
Proof.
  induction wl as [|w wl IH]; intros result words Hlen; simpl;
    [rewrite app_nil_r; reflexivity|].
  unfold uncover_word. rewrite uncover_fold by exact Hlen.
  destruct (forallb (fun i => i <? length p) w); simpl; [|reflexivity].
  rewrite IH; [rewrite <- app_assoc; reflexivity|].
  clear IH. revert result Hlen. induction w as [|i w IHw]; intros result Hlen; [exact Hlen|].
  simpl. apply IHw. rewrite update_nth_length. exact Hlen.
Qed.

Lemma make_word_line_eq wl phrase :
  make_word_line wl phrase =
  let p := list_ascii_of_string phrase in
  if forallb (forallb (fun i => i <? length p)) wl
  then Ok (string_of_list_ascii (join_space (map (map (fun i => nth i p " "%char)) wl)))
  else Raise IndexError.
Proof.
  unfold make_word_line. rewrite make_word_line_fold. cbn zeta.
  destruct (forallb (forallb (fun i => i <? length (list_ascii_of_string phrase))) wl);
    reflexivity.
Qed.

(** [make_word_line] joins with single spaces the words read off the phrase
    at the indices of each placement; it raises [IndexError] when some index
    is not below the length of the phrase. *)
Theorem make_word_line_spec wl phrase :
  make_word_line wl phrase =
  let p := list_ascii_of_string phrase in
  if forallb (forallb (fun i => i <? length p)) wl
  then Ok (string_of_list_ascii (join_space (map (map (fun i => nth i p " "%char)) wl)))
  else Raise IndexError.
Proof. apply make_word_line_eq. Qed.

Lemma print_word_list_true wl phrase :
  print_word_list wl phrase true = make_word_line wl phrase.
Proof.
  rewrite make_word_line_eq. unfold print_word_list. cbn zeta.
  rewrite print_words_fold by apply length_map.
  destruct (forallb (forallb (fun i => i <? length (list_ascii_of_string phrase))) wl);
    reflexivity.
Qed.

(** In words-only mode [print_word_list] prints the line [make_word_line]
    builds, and raises exactly when it raises. *)
Theorem print_word_list_words_only wl phrase :
  print_word_list wl phrase true = make_word_line wl phrase.
Proof. exact (print_word_list_true wl phrase). Qed.

(** On an empty list of words, the words-only mode prints an empty line while
    the full mode raises [ValueError] ([max] of an empty list). *)
Theorem print_word_list_no_words phrase :
  print_word_list [] phrase true = Ok ""%string /\
  print_word_list [] phrase false = Raise ValueError.
Proof. split; reflexivity. Qed.

Lemma nth_update_nth {A} : forall (r : list A) i k x d,
  nth k (update_nth i x r) d = if (k =? i) && (k <? length r) then x else nth k r d.
Proof.
  induction r as [|y r IH]; intros [|i] [|k] x d; simpl; try reflexivity;
    try (rewrite andb_false_r; reflexivity); apply IH.
Qed.

Lemma uncover_nth p : forall w r k, k < length r ->
  nth k (fold_left (fun r i => update_nth i (nth i p " "%char) r) w r) " "%char =
  if existsb (Nat.eqb k) w then nth k p " "%char else nth k r " "%char.
Proof.
  induction w as [|i w IH]; intros r k Hk; [reflexivity|].
  simpl. rewrite IH by (rewrite update_nth_length; exact Hk).
  rewrite nth_update_nth. replace (k <? length r) with true by (symmetry; apply Nat.ltb_lt, Hk).
  rewrite andb_true_r. destruct (Nat.eqb_spec k i) as [<-|]; simpl;
    destruct (existsb (Nat.eqb k) w); reflexivity.
Qed.

Lemma uncover_length p : forall w r,
  length (fold_left (fun r i => update_nth i (nth i p " "%char) r) w r) = length r.
Proof.
  induction w as [|i w IH]; intros r; [reflexivity|]. simpl. rewrite IH. apply update_nth_length.
Qed.

Lemma uncover_all_nth p : forall wl r k, k < length r ->
  nth k (fold_left (fun r w => fold_left (fun r i => update_nth i (nth i p " "%char) r) w r)
                   wl r) " "%char =
  if existsb (fun w => existsb (Nat.eqb k) w) wl then nth k p " "%char else nth k r " "%char.
Proof.
  induction wl as [|w wl IH]; intros r k Hk; [reflexivity|].
  simpl. rewrite IH by (rewrite uncover_length; exact Hk). rewrite uncover_nth by exact Hk.
  destruct (existsb (Nat.eqb k) w), (existsb (fun w => existsb (Nat.eqb k) w) wl); reflexivity.
Qed.

Lemma uncover_all_length p : forall wl r,
  length (fold_left (fun r w => fold_left (fun r i => update_nth i (nth i p " "%char) r) w r)
                    wl r) = length r.
Proof.
  induction wl as [|w wl IH]; intros r; [reflexivity|]. simpl. rewrite IH. apply uncover_length.
Qed.

Lemma join_space_chars : forall u c,
  join_space (map (fun c => [c]) (c :: u)) = c :: flat_map (fun d => [" "%char; d]) u.
Proof.
  induction u as [|d u IH]; intros c; [reflexivity|].
  change (join_space (map (fun c => [c]) (c :: d :: u)))
    with ([c] ++ " "%char :: join_space (map (fun c => [c]) (d :: u))).
  rewrite IH. reflexivity.
Qed.

Lemma interleave_facts : forall u c,
  length (c :: flat_map (fun d => [" "%char; d]) u) = 2 * length (c :: u) - 1 /\
  (forall k, k < length (c :: u) ->
     nth (2 * k) (c :: flat_map (fun d => [" "%char; d]) u) " "%char = nth k (c :: u) " "%char) /\
  (forall k, S k < length (c :: u) ->
     nth (2 * k + 1) (c :: flat_map (fun d => [" "%char; d]) u) " "%char = " "%char).
Proof.
  induction u as [|d u IH]; intros c.
  - split; [reflexivity|]. split; intros k Hk; simpl in Hk; [|lia].
    replace k with 0 by lia. reflexivity.
  - destruct (IH d) as (Hl & He & Ho). split; [|split].
    + simpl in Hl |- *. lia.
    + intros [|k] Hk; [reflexivity|].
      replace (2 * S k) with (S (S (2 * k))) by lia.
      simpl in Hk. exact (He k ltac:(simpl; lia)).
    + intros [|k] Hk; [reflexivity|].
      replace (2 * S k + 1) with (S (S (2 * k + 1))) by lia.
      simpl in Hk. exact (Ho k ltac:(simpl; lia)).
Qed.

Lemma bars_fold last : forall sis C,
  (forall i, In i sis -> 1 <= i /\ (i <> last -> 2 * i - 1 < length C)) ->
  exists C',
    res_fold_left (fun combined i =>
                     if negb (i =? last) then list_set combined (2 * i - 1) "|"%char
                     else Ok combined) sis C = Ok C' /\
    length C' = length C /\
    forall j, nth j C' " "%char =
      if existsb (fun i => negb (i =? last) && (2 * i - 1 =? j)) sis then "|"%char
      else nth j C " "%char.
Proof.
  induction sis as [|i sis IH]; intros C H.
  - exists C. split; [reflexivity|]. split; reflexivity.
  - destruct (Nat.eqb_spec i last) as [->|Hne].
    + destruct (IH C (fun x Hx => H x (or_intror Hx))) as (C' & Hr & Hl & Hn).
      exists C'. simpl. rewrite Nat.eqb_refl. simpl. split; [exact Hr|]. split; [exact Hl|].
      exact Hn.
    + destruct (H i (or_introl eq_refl)) as [Hi1 Hi2]. specialize (Hi2 Hne).
      destruct (IH (update_nth (2 * i - 1) "|"%char C)) as (C' & Hr & Hl & Hn).
      { intros x Hx. rewrite update_nth_length. exact (H x (or_intror Hx)). }
      exists C'. cbn [res_fold_left existsb].
      replace (i =? last) with false by (symmetry; apply Nat.eqb_neq, Hne). cbn [negb andb].
      rewrite list_set_eq. replace (2 * i - 1 <? length C) with true
        by (symmetry; apply Nat.ltb_lt, Hi2).
      cbn [bind]. split; [exact Hr|]. split; [rewrite Hl; apply update_nth_length|].
      intros j. rewrite Hn, nth_update_nth.
      destruct (existsb _ sis); [destruct (_ =? j); reflexivity|].
      rewrite orb_false_r. destruct (Nat.eqb_spec (2 * i - 1) j) as [<-|Hj].
      * rewrite Nat.eqb_refl. replace (2 * i - 1 <? length C) with true
          by (symmetry; apply Nat.ltb_lt, Hi2). reflexivity.
      * replace (j =? 2 * i - 1) with false by (symmetry; apply Nat.eqb_neq; congruence).
        reflexivity.
Qed.

Lemma fold_max_list_max : forall l x, fold_left Nat.max l x = Nat.max x (list_max l).
Proof.
  induction l as [|y l IH]; intros x; simpl; [lia|]. rewrite IH. lia.
Qed.

Lemma res_map_next_index wl : Forall (fun w => w <> []) wl ->
  res_map next_index wl = Ok (map (fun w => S (last w 0)) wl).
Proof.
  induction wl as [|w wl IH]; intros H; [reflexivity|].
  pose proof (Forall_inv H) as Hw. simpl. destruct w as [|i w]; [congruence|].
  cbn [next_index bind]. rewrite IH by exact (Forall_inv_tail H). reflexivity.
Qed.

Lemma existsb_map_and {A B} (f : B -> bool) (g : A -> B) (h : A -> bool) (b : bool) l :
  (forall x, In x l -> f (g x) = h x && b) ->
  existsb f (map g l) = existsb h l && b.
Proof.
  induction l as [|x l IH]; intros H; simpl; [reflexivity|].
  rewrite H by (left; reflexivity). rewrite IH by (intros; apply H; right; assumption).
  destruct (h x), (existsb h l), b; reflexivity.
Qed.

Lemma in_last (w : list nat) d : w <> [] -> In (last w d) w.
Proof.
  induction w as [|a w IH]; intros H; [congruence|].
  destruct w as [|b w]; [left; reflexivity|]. right. apply IH. discriminate.
Qed.

(** In full mode, for a non-empty list of non-empty words whose indices lie
    in the phrase, [print_word_list] prints the phrase with a space after
    each character, followed by the words in parentheses.  Position [2k]
    shows character [k] of the phrase when some word uses index [k] and its
    mask ([_] for a letter) otherwise; position [2k+1] shows [|] just after
    the last index of a word, except after the word that ends last, and a
    space elsewhere. *)
Theorem print_word_list_full wl phrase :
  wl <> [] ->
  Forall (fun w => w <> [] /\ Forall (fun i => i < length (list_ascii_of_string phrase)) w) wl ->
  let p := list_ascii_of_string phrase in
  exists line,
    print_word_list wl phrase false =
      Ok (string_of_list_ascii
            (line ++ list_ascii_of_string " (" ++
             join_space (map (map (fun i => nth i p " "%char)) wl) ++ [")"%char])) /\
    length line = 2 * length p - 1 /\
    (forall k, k < length p ->
       nth (2 * k) line " "%char =
       if existsb (fun w => existsb (Nat.eqb k) w) wl then nth k p " "%char
       else mask_char (nth k p " "%char)) /\
    (forall k, S k < length p ->
       nth (2 * k + 1) line " "%char =
       if existsb (fun w => last w 0 =? k) wl
          && negb (S k =? list_max (map (fun w => S (last w 0)) wl))
       then "|"%char else " "%char).
Proof.
  intros Hne Hall. cbn zeta. unfold print_word_list. cbn zeta.
  remember (list_ascii_of_string phrase) as p eqn:Hp. clear Hp.
  assert (Hf : forallb (forallb (fun i => i <? length p)) wl = true).
  { apply forallb_forall. intros w Hw. rewrite Forall_forall in Hall.
    destruct (Hall w Hw) as [_ Hi]. apply forallb_forall. intros i Hi'.
    rewrite Forall_forall in Hi. apply Nat.ltb_lt, Hi, Hi'. }
  assert (Hlenp : 1 <= length p).
  { destruct wl as [|w wl]; [congruence|]. pose proof (Forall_inv Hall) as [Hw Hi].
    destruct w as [|i w]; [congruence|]. pose proof (Forall_inv Hi) as Hi0.
    cbn beta in Hi0. lia. }
  rewrite print_words_fold by apply length_map. rewrite Hf. cbn [bind].
  set (U := fold_left _ wl (map mask_char p)).
  assert (HUlen : length U = length p) by (unfold U; rewrite uncover_all_length; apply length_map).
  assert (HUnth : forall k, k < length p -> nth k U " "%char =
            if existsb (fun w => existsb (Nat.eqb k) w) wl then nth k p " "%char
            else mask_char (nth k p " "%char)).
  { intros k Hk. unfold U. rewrite uncover_all_nth by (rewrite length_map; exact Hk).
    rewrite (nth_indep (map mask_char p) " "%char (mask_char " "%char))
      by (rewrite length_map; exact Hk).
    rewrite map_nth. reflexivity. }
  rewrite res_map_next_index by (eapply Forall_impl; [|exact Hall]; intros w [Hw _]; exact Hw).
  cbn [bind].
  set (sis := map (fun w => S (last w 0)) wl).
  assert (Hmax : py_max sis = Ok (list_max sis)).
  { unfold sis. destruct wl as [|w wl]; [congruence|]. cbn [map py_max].
    rewrite fold_max_list_max. reflexivity. }
  rewrite Hmax. cbn [bind].
  assert (Hsis : forall i, In i sis -> 1 <= i /\ i <= length p).
  { intros i Hi. unfold sis in Hi. apply in_map_iff in Hi as [w [<- Hw]].
    rewrite Forall_forall in Hall. destruct (Hall w Hw) as [Hw0 Hi].
    split; [lia|]. rewrite Forall_forall in Hi.
    assert (In (last w 0) w) by (apply in_last; exact Hw0). specialize (Hi _ H). lia. }
  assert (HM : list_max sis <= length p).
  { apply list_max_le, Forall_forall. intros i Hi. apply Hsis, Hi. }
  destruct U as [|c u] eqn:EU; [simpl in HUlen; lia|].
  destruct (interleave_facts u c) as (HCl & HCe & HCo).
  rewrite <- join_space_chars in HCl, HCe, HCo.
  destruct (bars_fold (list_max sis) sis (join_space (map (fun c => [c]) (c :: u))))
    as (C' & HC' & HC'l & HC'n).
  { intros i Hi. destruct (Hsis i Hi) as [Hi1 Hi2]. split; [exact Hi1|]. intros Hne'.
    assert (i <= list_max sis).
    { pose proof (proj1 (list_max_le sis (list_max sis)) (le_n _)) as Hf'.
      rewrite Forall_forall in Hf'. apply Hf', Hi. }
    rewrite HCl. rewrite HUlen in *. lia. }
  exists C'. rewrite HC'. cbn [bind]. split; [reflexivity|].
  rewrite HUlen in HCl, HCe, HCo. split; [rewrite HC'l, HCl; reflexivity|]. split.
  - intros k Hk. rewrite HC'n.
    replace (existsb (fun i => negb (i =? list_max sis) && (2 * i - 1 =? 2 * k)) sis) with false.
    + rewrite HCe by exact Hk. rewrite <- HUnth by exact Hk. reflexivity.
    + symmetry. apply not_true_iff_false. intros Hex. apply existsb_exists in Hex as [i [Hi Hb]].
      apply andb_prop in Hb as [_ Hb]. apply Nat.eqb_eq in Hb.
      destruct (Hsis i Hi). lia.
  - intros k Hk. rewrite HC'n.
    assert (E : existsb (fun i => negb (i =? list_max sis) && (2 * i - 1 =? 2 * k + 1)) sis =
                existsb (fun w => last w 0 =? k) wl && negb (S k =? list_max sis)).
    2: { rewrite E. destruct (_ && _); [reflexivity|]. apply HCo. exact Hk. }
    apply existsb_map_and. intros w _. destruct (Nat.eqb_spec (last w 0) k) as [->|Hk'].
      * replace (2 * S k - 1 =? 2 * k + 1) with true by (symmetry; apply Nat.eqb_eq; lia).
        rewrite andb_true_r. reflexivity.
      * replace (2 * S (last w 0) - 1 =? 2 * k + 1) with false
          by (symmetry; apply Nat.eqb_neq; lia).
        rewrite andb_false_r. reflexivity.
Qed.

Lemma lower_string_of_list l : lower (string_of_list_ascii l) = map ascii_lower l.
Proof. unfold lower. rewrite list_ascii_of_string_of_list_ascii. reflexivity. Qed.

Lemma map_join_space (f : ascii -> ascii) : f " "%char = " "%char ->
  forall ws, map f (join_space ws) = join_space (map (map f) ws).
Proof.
  intros Hf. induction ws as [|w ws IH]; [reflexivity|].
  destruct ws as [|w' ws]; [reflexivity|].
  change (join_space (w :: w' :: ws)) with (w ++ " "%char :: join_space (w' :: ws)).
  rewrite map_app. cbn [map]. rewrite Hf, IH. reflexivity.
Qed.

Lemma spelled_word p : forall y W, map (nth_error p) y = map Some W ->
  map (fun i => nth i p " "%char) y = W /\ forallb (fun i => i <? length p) y = true.
Proof.
  induction y as [|j y IH]; intros [|c W] H; try discriminate; [split; reflexivity|].
  cbn [map] in H. injection H as Hj Hy. destruct (IH W Hy) as [H1 H2].
  cbn [map forallb]. rewrite (nth_error_nth _ _ " "%char Hj), H1, H2.
  assert (j < length p) by (apply nth_error_Some; congruence).
  replace (j <? length p) with true by (symmetry; apply Nat.ltb_lt; lia). split; reflexivity.
Qed.

Lemma choose_words {A B} (P : A -> B -> Prop) : forall l,
  (forall y, In y l -> exists W, P y W) -> exists ws, Forall2 P l ws.
Proof.
  induction l as [|y l IH]; intros H; [exists []; constructor|].
  destruct (H y (or_introl eq_refl)) as [W HW].
  destruct (IH (fun z Hz => H z (or_intror Hz))) as [ws Hws].
  exists (W :: ws). constructor; assumption.
Qed.

Lemma stored_placement_word dictionary phrase count allow_less mr i y :
  Forall (fun w => w <> ""%string) dictionary ->
  build_matches (set_dict dictionary) phrase count allow_less = Ok mr ->
  In y (bucket mr i) ->
  exists W, In W (map lower dictionary) /\ forallb is_letter W = true /\
            placement_of (lower phrase) W y.
Proof.
  intros Hd Hb Hy.
  destruct (build_matches_table dictionary phrase count allow_less Hd) as [mr' [Hb' Hc]].
  rewrite Hb in Hb'. injection Hb' as <-.
  apply (count_occ_In placement_eq_dec) in Hy. rewrite Hc in Hy.
  destruct (filter _ (map lower dictionary)) as [|W ws] eqn:E; [simpl in Hy; lia|].
  assert (HW : In W (filter (fun W => forallb is_letter W && placement_ofb (lower phrase) W y
                                      && (start_of y =? i)) (map lower dictionary)))
    by (rewrite E; left; reflexivity).
  apply filter_In in HW as [HW Hb2]. apply andb_prop in Hb2 as [Hb2 _].
  apply andb_prop in Hb2 as [Hl Hp]. exists W. split; [exact HW|]. split; [exact Hl|].
  apply placement_ofb_iff, Hp.
Qed.

(** Every combination that [print_matches] hands to the printer gives, through
    [make_word_line], a line that reads (lower-cased) as dictionary words of
    lowercase letters separated by single spaces, one word per placement,
    each spelled by its placement in the lower-cased phrase. *)
Theorem combination_line_dictionary_words dictionary phrase count allow_less out c :
  Forall (fun w => w <> ""%string) dictionary ->
  find_combinations dictionary phrase count allow_less = Ok out ->
  In c out ->
  exists line ws,
    make_word_line c phrase = Ok line /\
    lower line = join_space ws /\
    Forall2 (fun y W => In W (map lower dictionary) /\ forallb is_letter W = true /\
                        placement_of (lower phrase) W y) c ws.
Proof.
  intros Hd Hf Hc. unfold find_combinations, print_matches in Hf.
  destruct (build_matches (set_dict dictionary) phrase count allow_less) as [mr|e] eqn:Hb;
    [|discriminate].
  cbn [bind] in Hf.
  destruct (build_matches_ok _ _ _ _ _ Hb) as [_ [_ [Hwf _]]].
  pose proof (count_occ_out mr out Hwf Hf c) as Hcnt.
  apply (count_occ_In combination_eq_dec) in Hc. rewrite Hcnt in Hc.
  assert (Hm : multiplicity mr c <> 0).
  { unfold expected_count in Hc. destruct c; [lia|].
    destruct (_ && _); lia. }
  destruct (choose_words (fun y W => In W (map lower dictionary) /\ forallb is_letter W = true /\
                                     placement_of (lower phrase) W y) c)
    as [ws Hws].
  { intros y Hy. apply (stored_placement_word dictionary phrase count allow_less mr
                          (start_of y) y Hd Hb).
    exact (multiplicity_stored mr c Hm y Hy). }
  assert (Hsp : forall y W, (In W (map lower dictionary) /\ forallb is_letter W = true /\
                            placement_of (lower phrase) W y) ->
                map (fun i => nth i (lower phrase) " "%char) y = W /\
                forallb (fun i => i <? length (lower phrase)) y = true).
  { intros y W (_ & _ & _ & Hmap). apply spelled_word, Hmap. }
  assert (Hall : forallb (forallb (fun i => i <? length (list_ascii_of_string phrase))) c = true
                 /\ map (map (fun i => nth i (lower phrase) " "%char)) c = ws).
  { clear Hc Hcnt Hm. induction Hws as [|y W c ws HyW Hws IH]; [split; reflexivity|].
    destruct (Hsp y W HyW) as [H1 H2]. destruct IH as [IH1 IH2].
    unfold lower in H2. rewrite length_map in H2. cbn [forallb map].
    rewrite H2, IH1, H1, IH2. split; reflexivity. }
  destruct Hall as [Hall Hmapws].
  rewrite make_word_line_eq. cbn zeta. rewrite Hall.
  eexists. exists ws. split; [reflexivity|]. split; [|exact Hws].
  rewrite lower_string_of_list, map_join_space by reflexivity.
  rewrite <- Hmapws, map_map. f_equal. apply map_ext. intros y. rewrite map_map.
  apply map_ext. intros i. unfold lower.
  rewrite <- (map_nth ascii_lower (list_ascii_of_string phrase) " "%char i). reflexivity.
Qed.

Lemma make_word_line_spec_witness :
  make_word_line [[0; 1]; [3]] "Hi yo" = Ok "Hi y"%string /\
  make_word_line [[5]] "Hi yo" = Raise IndexError.
Proof. split; rewrite make_word_line_spec; reflexivity. Defined.

Lemma print_word_list_full_witness :
  [[0; 1]; [3]] <> [] /\
  Forall (fun w => w <> [] /\ Forall (fun i => i < length (list_ascii_of_string "Hi yo")) w)
         [[0; 1]; [3]] /\
  exists line,
    print_word_list [[0; 1]; [3]] "Hi yo" false =
      Ok (string_of_list_ascii (line ++ list_ascii_of_string " (Hi y)")) /\
    length line = 9.
Proof.
  assert (H1 : [[0; 1]; [3]] <> []) by discriminate.
  assert (H2 : Forall (fun w => w <> [] /\
                 Forall (fun i => i < length (list_ascii_of_string "Hi yo")) w) [[0; 1]; [3]])
    by (repeat constructor; (discriminate || (simpl; lia))).
  split; [exact H1|]. split; [exact H2|].
  destruct (print_word_list_full [[0; 1]; [3]] "Hi yo" H1 H2) as (line & Hl & Hlen & _).
  exists line. split; [exact Hl|exact Hlen].
Defined.

Lemma combination_line_dictionary_words_witness :
  exists out line ws,
    Forall (fun w => w <> ""%string) ["Hi"; "Yo"]%string /\
    find_combinations ["Hi"; "Yo"]%string "Hi yo" 0 true = Ok out /\
    In [[0; 1]; [3; 4]] out /\
    make_word_line [[0; 1]; [3; 4]] "Hi yo" = Ok line /\
    lower line = join_space ws.
Proof.
  assert (Hd : Forall (fun w => w <> ""%string) ["Hi"; "Yo"]%string)
    by (repeat constructor; discriminate).
  destruct (find_combinations ["Hi"; "Yo"]%string "Hi yo" 0 true) as [out|e] eqn:E;
    [|vm_compute in E; discriminate].
  assert (Hin : In [[0; 1]; [3; 4]] out) by (vm_compute in E; injection E as <-; simpl; tauto).
  destruct (combination_line_dictionary_words _ _ _ _ out _ Hd E Hin) as (line & ws & H1 & H2 & _).
  exists out, line, ws. repeat split; assumption.
Defined.

(** ** Extra properties: the lines [print_matches] prints *)

Lemma res_map_ext {A B} (f g : A -> res B) l :
  (forall x, f x = g x) -> res_map f l = res_map g l.
Proof. intros H. induction l as [|x l IH]; simpl; [reflexivity|]. rewrite H, IH. reflexivity. Qed.

Lemma unique_lines_spec : forall lines seen,
  NoDup (map lower (unique_lines seen lines)) /\
  (forall l, In l (unique_lines seen lines) -> ~ In (lower l) seen) /\
  incl (unique_lines seen lines) lines /\
  (forall l, In l lines -> In (lower l) seen \/
                           exists l', In l' (unique_lines seen lines) /\ lower l' = lower l).
Proof.
  induction lines as [|line lines IH]; intros seen.
  - split; [constructor|]. split; [intros l []|]. split; [intros l []|intros l []].
  - cbn [unique_lines]. destruct (in_dec (list_eq_dec ascii_dec) (lower line) seen) as [Hin|Hin].
    + destruct (IH seen) as (H1 & H2 & H3 & H4). split; [exact H1|]. split; [exact H2|].
      split; [intros l Hl; right; apply H3, Hl|].
      intros l [<-|Hl]; [left; exact Hin|apply H4, Hl].
    + destruct (IH (lower line :: seen)) as (H1 & H2 & H3 & H4).
      split; [|split; [|split]].
      * cbn [map]. constructor; [|exact H1]. intros Hm. apply in_map_iff in Hm as [l [Hl Hl']].
        apply (H2 l Hl'). left. symmetry. exact Hl.
      * intros l [<-|Hl]; [exact Hin|]. intros Hs. apply (H2 l Hl). right. exact Hs.
      * intros l [<-|Hl]; [left; reflexivity|right; apply H3, Hl].
      * intros l [<-|Hl]; [right; exists line; split; [left|]; reflexivity|].
        destruct (H4 l Hl) as [[Heq|Hs]|[l' [Hl' Heq]]].
        -- right. exists line. split; [left; reflexivity|exact Heq].
        -- left. exact Hs.
        -- right. exists l'. split; [right; exact Hl'|exact Heq].
Qed.

(** With [words_only] and [unique_phrases], [print_matches] prints the lines
    of the plain words-only mode with the repeats (up to case) left out: no
    two printed lines are equal once lower-cased, every printed line is a
    line of the words-only mode, and every line of that mode is printed in
    some casing. *)
Theorem unique_phrases_lines wm phrase count allow_less out :
  print_matches_lines wm phrase count allow_less true true = Ok out ->
  NoDup (map lower out) /\
  exists lines, print_matches_lines wm phrase count allow_less true false = Ok lines /\
    incl out lines /\ (forall l, In l lines -> exists l', In l' out /\ lower l' = lower l).
Proof.
  unfold print_matches_lines. intros H.
  destruct (build_matches wm phrase count allow_less) as [mr|e]; [|discriminate].
  cbn [bind] in H |- *.
  destruct (iterate_all_matches mr) as [combos|e]; [|discriminate].
  cbn [bind andb] in H |- *.
  destruct (res_map (fun word_list => make_word_line word_list phrase) combos)
    as [lines|e] eqn:E; [|discriminate].
  cbn [bind] in H. injection H as <-.
  destruct (unique_lines_spec lines []) as (H1 & _ & H3 & H4).
  split; [exact H1|]. exists lines. split.
  - rewrite <- E. apply res_map_ext. intros x. apply print_word_list_true.
  - split; [exact H3|]. intros l Hl. destruct (H4 l Hl) as [[]|H]. exact H.
Qed.

Lemma unique_phrases_lines_witness :
  exists out,
    print_matches_lines (set_dict ["Hi"; "hi"; "yo"]%string) "Hi yo" 0 true true true = Ok out /\
    NoDup (map lower out).
Proof.
  destruct (print_matches_lines (set_dict ["Hi"; "hi"; "yo"]%string) "Hi yo" 0 true true true)
    as [out|e] eqn:E; [|vm_compute in E; discriminate].
  exists out. split; [reflexivity|]. exact (proj1 (unique_phrases_lines _ _ _ _ _ E)).
Defined.

(** ** Extra properties: the words of the dictionary *)

Lemma ascii_lower_idem c : ascii_lower (ascii_lower c) = ascii_lower c.
Proof. destruct c as [[] [] [] [] [] [] [] []]; reflexivity. Qed.

Lemma drop_spaces_suffix : forall s c, In c (drop_spaces s) -> In c s.
Proof.
  induction s as [|a s IH]; intros c H; [exact H|]. simpl in H.
  destruct (is_space a); [right; apply IH, H|exact H].
Qed.

Lemma rstrip_in s c : In c (rstrip s) -> In c s.
Proof. unfold rstrip. intros H. apply in_rev, drop_spaces_suffix, in_rev in H. exact H. Qed.

Lemma rstrip_last s : rstrip s = [] \/ is_space (last (rstrip s) " "%char) = false.
Proof.
  unfold rstrip. induction (rev s) as [|a r IH]; [left; reflexivity|].
  cbn [drop_spaces]. destruct (is_space a) eqn:E; [exact IH|]. right. cbn [rev].
  rewrite last_last. exact E.
Qed.

Lemma read_dict_in fs path lines w :
  fs path = Ok lines ->
  (exists ws, read_dict fs path = Ok ws /\ In w ws) ->
  exists line, In line lines /\ w = string_of_list_ascii (rstrip (map ascii_lower line)).
Proof.
  intros Hfs [ws [H Hw]]. unfold read_dict in H. rewrite Hfs in H. cbn [bind] in H.
  injection H as <-. apply in_map_iff in Hw as [x [<- Hx]].
  rewrite in_sort_strings, nodup_In, in_map_iff in Hx. destruct Hx as [line [<- Hl]].
  exists line. split; [exact Hl|reflexivity].
Qed.

(** Every word [read_dict] returns is in lower case (lower-casing leaves it
    unchanged) and does not end with whitespace. *)
Theorem read_dict_normalized fs path ws :
  read_dict fs path = Ok ws ->
  forall w, In w ws ->
    map ascii_lower (list_ascii_of_string w) = list_ascii_of_string w /\
    (w = ""%string \/ is_space (last (list_ascii_of_string w) " "%char) = false).
Proof.
  intros H w Hw. destruct (fs path) as [lines|e] eqn:Hfs;
    [|unfold read_dict in H; rewrite Hfs in H; discriminate].
  destruct (read_dict_in fs path lines w Hfs (ex_intro _ ws (conj H Hw))) as [line [_ ->]].
  rewrite list_ascii_of_string_of_list_ascii. split.
  - rewrite <- map_id. apply map_ext_in. intros c Hc. apply rstrip_in, in_map_iff in Hc.
    destruct Hc as [d [<- _]]. apply ascii_lower_idem.
  - destruct (rstrip_last (map ascii_lower line)) as [He|Hl]; [left|right; exact Hl].
    rewrite He. reflexivity.
Qed.

Lemma sorted_nil_first l :
  StronglySorted (fun s t => str_ltb s t = true) l -> In [] l -> exists l', l = [] :: l'.
Proof.
  intros Hs Hin. destruct l as [|h l']; [destruct Hin|].
  destruct h as [|a h]; [exists l'; reflexivity|].
  destruct Hin as [Hh|Hin]; [discriminate|].
  apply StronglySorted_inv in Hs as [_ Hf]. rewrite Forall_forall in Hf.
  specialize (Hf [] Hin). discriminate.
Qed.

(** A dictionary file with a blank (or whitespace-only) line makes [main]
    fail with [KeyError] for every phrase: [read_dict] returns the empty word
    first, and its inventory has no keys. *)
Theorem blank_line_key_error fs dictionary phrase count allow_less lines :
  fs (dict_path dictionary) = Ok lines ->
  (exists line, In line lines /\ rstrip (map ascii_lower line) = []) ->
  main_with_phrase fs dictionary phrase count allow_less = Raise KeyError.
Proof.
  intros Hfs [line [Hl Hb]].
  set (words := nodup (list_eq_dec ascii_dec) (map (fun line => rstrip (map ascii_lower line)) lines)).
  assert (Hin : In [] (sort_strings words)).
  { unfold words. rewrite in_sort_strings, nodup_In, in_map_iff. exists line. split; assumption. }
  destruct (sorted_nil_first _ (sort_strings_sorted words (NoDup_nodup _ _)) Hin) as [rest Hr].
  unfold main_with_phrase, WordMatcher_init, read_dict. rewrite Hfs. cbn [bind].
  fold words. rewrite Hr. cbn [bind].
  unfold print_matches, build_matches, trim_dictionary, set_dict.
  cbn [map wm_dictionary wm_inventories trim_loop].
  change (lower (string_of_chars [])) with (@nil ascii). rewrite inv_sub_empty. reflexivity.
Qed.

Lemma read_dict_normalized_witness :
  exists ws, read_dict (fun _ => Ok [["C"; "a"; "t"; " "; "010"]]%char) DICT_PATH = Ok ws /\
    forall w, In w ws ->
      map ascii_lower (list_ascii_of_string w) = list_ascii_of_string w /\
      (w = ""%string \/ is_space (last (list_ascii_of_string w) " "%char) = false).
Proof.
  eexists. split; [reflexivity|].
  apply (read_dict_normalized (fun _ => Ok [["C"; "a"; "t"; " "; "010"]]%char) DICT_PATH).
  reflexivity.
Defined.

Lemma blank_line_key_error_witness :
  (fun _ : string => Ok (A := list (list ascii)) [["c"; "a"; "t"]; ["010"]]%char)
    (dict_path None) = Ok [["c"; "a"; "t"]; ["010"]]%char /\
  main_with_phrase (fun _ => Ok [["c"; "a"; "t"]; ["010"]]%char) None "cat" 0 true
    = Raise KeyError.
Proof.
  split; [reflexivity|].
  apply (blank_line_key_error _ None "cat" 0 true [["c"; "a"; "t"]; ["010"]]%char eq_refl).
  exists ["010"%char]. split; [right; left; reflexivity|reflexivity].
Defined.
